(** * A shallow embedding of [src/distributed-lock.ts]

    The TypeScript class [DistributedLock] coordinates several processes
    through marker keys kept in a Valkey cluster.  Every method is an
    [async] function whose only effects are commands sent to the cluster,
    so each method is embedded as a state-passing computation over a
    [World]: the key space of the cluster, the list of commands the
    cluster has been sent so far, and a schedule of transport failures.

    Conventions of the embedding.
    - A JavaScript [number] used as a count of seconds is an integer [Z].
    - A rejected promise / thrown value is the [Raised] outcome; [await]
      is the bind of the monad [M].
    - The cluster is the authoritative primary of every key; the passage
      of time is not modelled, an entry only records the expiry it was
      written with.
    - A command that fails in transport has no effect on the key space.
    - The cluster refuses a [SET] whose expiry count is not positive, as
      Valkey does ("invalid expire time"), and [client.set] then rejects. *)

From Stdlib Require Import ZArith NArith Ascii String List Lia.
From stdpp Require Import base option gmap strings list.

Local Open Scope string_scope.
Local Open Scope list_scope.
Local Open Scope Z_scope.

(** ** JavaScript values, failures and outcomes *)

(** The values a promise of this module can resolve to.  [T | null] is an
    untagged union in TypeScript: [VNull] is a value like any other. *)
Inductive value :=
| VNull
| VUndefined
| VBool (b : bool)
| VNum (n : Z)
| VStr (s : string).

#[global] Instance value_eq_dec : EqDecision value.
Proof. solve_decision. Defined.

(** What a rejected promise carries: an error of the cluster client, or
    any value thrown by user code. *)
Inductive exn :=
| RequestError (msg : string)
| Thrown (v : value).

#[global] Instance exn_eq_dec : EqDecision exn.
Proof. solve_decision. Defined.

Inductive outcome (A : Type) :=
| Returned (a : A)
| Raised (e : exn).
Arguments Returned {A} a.
Arguments Raised {A} e.

#[global] Instance outcome_eq_dec {A} `{EqDecision A} : EqDecision (outcome A).
Proof. solve_decision. Defined.

(** ** The cluster: key space, commands, transport *)

Inductive TimeUnit := Seconds | Milliseconds | UnixSeconds | UnixMilliseconds.

Record Expiry := { type : TimeUnit; count : Z }.

Inductive ConditionalChange := onlyIfExists | onlyIfDoesNotExist.

(** The options object of [client.set]. *)
Record SetOptions := {
  expiry : option Expiry;
  conditionalSet : option ConditionalChange
}.

Definition no_options : SetOptions :=
  {| expiry := None; conditionalSet := None |}.

(** One key of the key space: the stored string and the expiry it was
    written with ([None]: the key never expires). *)
Record entry := { stored : string; expires : option Expiry }.

#[global] Instance TimeUnit_eq_dec : EqDecision TimeUnit.
Proof. solve_decision. Defined.
#[global] Instance Expiry_eq_dec : EqDecision Expiry.
Proof. solve_decision. Defined.
#[global] Instance entry_eq_dec : EqDecision entry.
Proof. solve_decision. Defined.

Inductive Route :=
| allPrimaries
| allNodes
| randomNode
| primarySlotKey (key : string)
| replicaSlotKey (key : string).

(** *** The Lua of a [Script]

    Only the fragment the release script is written in: command calls on
    one key, [ARGV], numerals, [==], [if]/[else] and [return].  Valkey
    exposes the command API under both names [server] and [redis]. *)
Module Lua.

Inductive val := Nil | Bool (b : bool) | Num (n : Z) | Str (s : string).

#[global] Instance val_eq_dec : EqDecision val.
Proof. solve_decision. Defined.

Inductive expr :=
| ARGV (i : nat)
| Const (n : Z)
| Call (cmd : string) (arg : expr)
| Eq (a b : expr).

Inductive stmt :=
| If (c : expr) (t e : stmt)
| Return (e : expr).

(** [false] and [nil] are the two falsy values of Lua. *)
Definition truthy (v : val) : bool :=
  match v with
  | Nil | Bool false => false
  | _ => true
  end.

(** [ARGV] is indexed from 1. *)
Definition argv (args : list string) (i : nat) : val :=
  match i with
  | O => Nil
  | S j => match nth_error args j with Some s => Str s | None => Nil end
  end.

(** A command called from a script: the reply converted to Lua, and
    the key space afterwards.  A missing key reads as [false]. *)
Definition call (cmd : string) (key : string) (ks : gmap string entry)
  : option val * gmap string entry :=
  if decide (cmd = "get") then
    (Some (match ks !! key with Some e => Str (stored e) | None => Bool false end), ks)
  else if decide (cmd = "del") then
    (Some (Num (match ks !! key with Some _ => 1 | None => 0 end)), delete key ks)
  else (None, ks).

(** [None] is a script error. *)
Fixpoint eval (e : expr) (args : list string) (ks : gmap string entry)
  : option val * gmap string entry :=
  match e with
  | ARGV i => (Some (argv args i), ks)
  | Const n => (Some (Num n), ks)
  | Call cmd a =>
      match eval a args ks with
      | (Some (Str key), ks1) => call cmd key ks1
      | (_, ks1) => (None, ks1)
      end
  | Eq a b =>
      match eval a args ks with
      | (Some va, ks1) =>
          match eval b args ks1 with
          | (Some vb, ks2) => (Some (Bool (bool_decide (va = vb))), ks2)
          | (None, ks2) => (None, ks2)
          end
      | (None, ks1) => (None, ks1)
      end
  end.

Fixpoint exec (s : stmt) (args : list string) (ks : gmap string entry)
  : option val * gmap string entry :=
  match s with
  | Return e => eval e args ks
  | If c t e =>
      match eval c args ks with
      | (Some v, ks1) => if truthy v then exec t args ks1 else exec e args ks1
      | (None, ks1) => (None, ks1)
      end
  end.

(** The reply of a script as the client hands it to JavaScript. *)
Definition reply (v : val) : value :=
  match v with
  | Num n => VNum n
  | Str s => VStr s
  | Bool true => VNum 1
  | Bool false | Nil => VNull
  end.

End Lua.

Record Script := { code : Lua.stmt }.

(** A command as the cluster receives it. *)
Inductive command :=
| CmdSet (key value : string) (options : SetOptions)
| CmdScript (script : Script) (args : list string) (route : Route).

(** [keys]: the key space.  [sent]: the commands handed to the transport
    so far, oldest first.  [faults]: what the transport will do with the
    commands to come, one entry per command: [Some e] fails the command
    with [e], [None] delivers it, and so does an exhausted schedule. *)
Record World := {
  keys : gmap string entry;
  sent : list command;
  faults : list (option exn)
}.

(** The computations of the module: [Promise<A>] under [await]. *)
Definition M (A : Type) : Type := World -> outcome A * World.

Definition ret {A} (a : A) : M A := fun w => (Returned a, w).

Definition bind {A B} (m : M A) (k : A -> M B) : M B :=
  fun w =>
    match m w with
    | (Returned a, w1) => k a w1
    | (Raised e, w1) => (Raised e, w1)
    end.

Declare Scope async_scope.
Delimit Scope async_scope with async.
Notation "'let!' x ':=' 'await' m 'in' k" := (bind m (fun x => k))
  (at level 10, x binder, m at level 200, k at level 200) : async_scope.

(** [try { body } finally { cleanup }] where the cleanup block neither
    returns nor breaks: the cleanup runs on both exits of [body]; its
    normal completion resumes the pending exit of [body], and a failure
    of the cleanup becomes the exit of the whole statement. *)
Definition try_finally {A B} (body : M A) (cleanup : M B) : M A :=
  fun w =>
    let '(r, w1) := body w in
    match cleanup w1 with
    | (Returned _, w2) => (r, w2)
    | (Raised e, w2) => (Raised e, w2)
    end.

(** The world once [c] has been handed to the transport: [c] is on
    record and one entry of the schedule is used up. *)
Definition posted (c : command) (w : World) : World :=
  {| keys := keys w; sent := sent w ++ [c]; faults := tl (faults w) |}.

(** Sending a command: the transport either fails it (the next entry of
    the schedule is an error, which rejects the promise) or delivers it. *)
Definition send (c : command) : M unit :=
  fun w =>
    match faults w with
    | Some e :: _ => (Raised e, posted c w)
    | _ => (Returned tt, posted c w)
    end.

(** Whether the transport delivers the next command. *)
Definition delivers (w : World) : Prop :=
  match faults w with
  | Some _ :: _ => False
  | _ => True
  end.

(** The server checks the expiry of a [SET] while it parses the
    command, before it looks at the key: the count must be positive. *)
Definition valid_expiry (options : SetOptions) : bool :=
  match expiry options with
  | Some x => 0 <? count x
  | None => true
  end.

Definition invalid_expire_time : exn :=
  RequestError "ERR invalid expire time in 'set' command".

(** The effect of [SET key value [NX|XX] [EX count]] on the key space
    and its reply: an error for an expiry count that is not positive,
    else ["OK"], or [null] when the condition does not hold. *)
Definition do_set (key value : string) (options : SetOptions)
  (ks : gmap string entry) : outcome (option string) * gmap string entry :=
  if negb (valid_expiry options) then (Raised invalid_expire_time, ks)
  else
    let e := {| stored := value; expires := expiry options |} in
    match conditionalSet options, ks !! key with
    | Some onlyIfDoesNotExist, Some _ => (Returned None, ks)
    | Some onlyIfExists, None => (Returned None, ks)
    | _, _ => (Returned (Some "OK"), <[key := e]> ks)
    end.

Definition with_keys (ks : gmap string entry) (w : World) : World :=
  {| keys := ks; sent := sent w; faults := faults w |}.

(** [client.set(key, value, options)] *)
Definition client_set (key value : string) (options : SetOptions)
  : M (option string) :=
  (let! _ := await send (CmdSet key value options) in
   fun w =>
     let '(r, ks) := do_set key value options (keys w) in
     (r, with_keys ks w))%async.

(** [client.invokeScriptWithRoute(script, { args, route })]: the script
    runs as one indivisible step of the cluster. *)
Definition invokeScriptWithRoute (script : Script) (args : list string)
  (route : Route) : M value :=
  (let! _ := await send (CmdScript script args route) in
   fun w =>
     match Lua.exec (code script) args (keys w) with
     | (Some v, ks) => (Returned (Lua.reply v), with_keys ks w)
     | (None, ks) => (Raised (RequestError "script error"), with_keys ks w)
     end)%async.

(** ** The module [distributed-lock.ts] *)

Definition DEFAULT_LOCK_TTL_SECONDS : Z := 10.

(** [if server.call("get", ARGV[1]) == ARGV[2]
     then return redis.call("del", ARGV[1]) else return 0 end] *)
Definition releaseLockScript : Script :=
  {| code :=
       Lua.If (Lua.Eq (Lua.Call "get" (Lua.ARGV 1)) (Lua.ARGV 2))
         (Lua.Return (Lua.Call "del" (Lua.ARGV 1)))
         (Lua.Return (Lua.Const 0)) |}.

(** [Buffer.toString("hex")]: two lower-case digits per byte. *)
Definition hex_digit (n : N) : ascii :=
  if (n <? 10)%N then ascii_of_N (48 + n) else ascii_of_N (87 + n).

Fixpoint toString_hex (buf : list Byte.byte) : string :=
  match buf with
  | [] => EmptyString
  | b :: rest =>
      let n := Byte.to_N b in
      String (hex_digit (n / 16)) (String (hex_digit (n mod 16)) (toString_hex rest))
  end.

(** [randomBytes] is the entropy source of the process: [randomBytes n]
    is the buffer it hands out when asked for [n] bytes. *)
Definition generateClientId (randomBytes : nat -> list Byte.byte) : string :=
  toString_hex (randomBytes 16%nat).

(** The fields of the class.  The [client] field is the connection to
    the cluster, that is, to the [World] every method is run in. *)
Record DistributedLock := {
  clientId : string;
  lockTtlSeconds : Z
}.

(** [constructor(client, lockTtlSeconds = DEFAULT_LOCK_TTL_SECONDS)]:
    an omitted argument is [None].  A constructor may throw, hence the
    [outcome]. *)
Definition constructor (randomBytes : nat -> list Byte.byte)
  (lockTtlSeconds : option Z) : outcome DistributedLock :=
  Returned {| clientId := generateClientId randomBytes;
              lockTtlSeconds := default DEFAULT_LOCK_TTL_SECONDS lockTtlSeconds |}.

Definition getClientId (self : DistributedLock) : string := clientId self.

(** [`lock:${key}`] *)
Definition lockKey (key : string) : string := String.append "lock:" key.

(** JavaScript truthiness of the reply of [client.set]
    (["OK"], a string, or [null]). *)
Definition truthy (r : option string) : bool :=
  match r with
  | None | Some EmptyString => false
  | Some _ => true
  end.

(** The third parameter of [safeSet]: [number | "*"]. *)
Inductive ttl_arg := star | seconds (n : Z).

(** The options both acquisition paths pass to [client.set]. *)
Definition lock_options (self : DistributedLock) : SetOptions :=
  {| expiry := Some {| type := Seconds; count := lockTtlSeconds self |};
     conditionalSet := Some onlyIfDoesNotExist |}.

Section Methods.
Variable self : DistributedLock.
Local Open Scope async_scope.

(** [acquireLock(key)]: one conditional set, [!!] of its reply. *)
Definition acquireLock (key : string) : M bool :=
  let lockKey := lockKey key in
  let! lockAcquired := await
    client_set lockKey (clientId self) (lock_options self) in
  ret (negb (negb (truthy lockAcquired))).

(** [releaseLock(key)]: one script call, [result === 1]. *)
Definition releaseLock (key : string) : M bool :=
  let lockKey := lockKey key in
  let! result := await
    invokeScriptWithRoute releaseLockScript
      [lockKey; clientId self] (primarySlotKey lockKey) in
  ret (bool_decide (result = VNum 1)).

(** [withLock(key, fn)]: [fn] is the promise-returning operation of the
    caller, any computation over the world. *)
Definition withLock (key : string) (fn : M value) : M value :=
  let! lockAcquired := await acquireLock key in
  if negb lockAcquired then ret VNull
  else try_finally fn (releaseLock key).

(** [safeSet(key, value, ttl)]: the acquisition and the release are
    written out in the method, not calls of the two methods above.  The
    local [success] starts [false] and is assigned [true] as the last
    statement of the [try] block. *)
Definition safeSet (key value : string) (ttl : ttl_arg) : M bool :=
  let lockKey := lockKey key in
  let! lockAcquired := await
    client_set lockKey (clientId self) (lock_options self) in
  if negb (truthy lockAcquired) then ret false
  else
    let success := false in
    let! success := await
      try_finally
        (let! _ := await
           match ttl with
           | star => client_set key value no_options
           | seconds n =>
               client_set key value
                 {| expiry := Some {| type := Seconds; count := n |};
                    conditionalSet := None |}
           end in
         ret true)
        (invokeScriptWithRoute releaseLockScript
           [lockKey; clientId self] (primarySlotKey lockKey)) in
    ret success.

End Methods.

(** ** Vocabulary of the statements below *)

Definition release_command (self : DistributedLock) (key : string) : command :=
  CmdScript releaseLockScript [lockKey key; clientId self]
    (primarySlotKey (lockKey key)).

Definition acquire_command (self : DistributedLock) (key : string) : command :=
  CmdSet (lockKey key) (clientId self) (lock_options self).

(** The marker an acquisition writes. *)
Definition marker (self : DistributedLock) : entry :=
  {| stored := clientId self;
     expires := Some {| type := Seconds; count := lockTtlSeconds self |} |}.

(** The lock key carries this instance's identity. *)
Definition held_by (self : DistributedLock) (key : string) (w : World) : Prop :=
  stored <$> keys w !! lockKey key = Some (clientId self).

#[global] Instance held_by_dec self key w : Decision (held_by self key w).
Proof. unfold held_by. apply _. Defined.

(** The write step of [safeSet]: [client.set(key, value)] when [ttl] is
    ["*"], [client.set(key, value, { expiry })] otherwise. *)
Definition write_options (ttl : ttl_arg) : SetOptions :=
  match ttl with
  | star => no_options
  | seconds n =>
      {| expiry := Some {| type := Seconds; count := n |}; conditionalSet := None |}
  end.

Definition data_write (key value : string) (ttl : ttl_arg) : M (option string) :=
  client_set key value (write_options ttl).

(** A [ttl] argument the cluster accepts: ["*"], or a positive number
    of seconds. *)
Definition valid_ttl (ttl : ttl_arg) : Prop :=
  match ttl with
  | star => True
  | seconds n => 0 < n
  end.

#[global] Instance valid_ttl_dec ttl : Decision (valid_ttl ttl).
Proof. destruct ttl; apply _. Defined.

(** A cleanup that raised overrides the pending exit of the guarded
    block; one that completed resumes it. *)
Definition after_cleanup {A B} (pending_exit : outcome A) (cleanup : outcome B)
  : outcome A :=
  match cleanup with
  | Returned _ => pending_exit
  | Raised e => Raised e
  end.

(** ** Concurrent acquisition

    An [acquireLock] call awaits exactly once, on its single command, so
    N calls in flight interleave only in the order in which the cluster
    takes their commands.  A [race] is the set of calls still in flight,
    the calls already settled with their outcomes, and the cluster; a
    step lets the cluster take the command of any one pending call. *)

(** No transport failure is scheduled. *)
Definition reliable (w : World) : Prop := Forall (fun f => f = None) (faults w).

Record race := {
  pending : list DistributedLock;
  settled : list (DistributedLock * outcome bool);
  cluster : World
}.

Inductive race_step (key : string) : race -> race -> Prop :=
| race_take before m after done w :
    race_step key
      {| pending := before ++ m :: after; settled := done; cluster := w |}
      {| pending := before ++ after;
         settled := done ++ [(m, (acquireLock m key w).1)];
         cluster := (acquireLock m key w).2 |}.

Definition start (ms : list DistributedLock) (w : World) : race :=
  {| pending := ms; settled := []; cluster := w |}.

Definition won (x : DistributedLock * outcome bool) : bool :=
  match x.2 with Returned true => true | _ => false end.

Definition lost (x : DistributedLock * outcome bool) : bool :=
  match x.2 with Returned false => true | _ => false end.

(** What holds of every state of a race on [key] among the calls [ms]
    that started with the lock key absent. *)
Record race_inv (key : string) (ms : list DistributedLock) (s : race) : Prop := {
  inv_reliable : reliable (cluster s);
  inv_ttl : Forall (fun m => 0 < lockTtlSeconds m) (pending s);
  inv_calls : pending s ++ (settled s).*1 ≡ₚ ms;
  inv_settled :
    (length (List.filter won (settled s)) + length (List.filter lost (settled s)))%nat
    = length (settled s);
  inv_winner :
    match keys (cluster s) !! lockKey key with
    | None => settled s = []
    | Some _ => length (List.filter won (settled s)) = 1%nat
    end
}.

(** ** Managers, operations and clusters used in the examples *)

Definition rnd0 (n : nat) : list Byte.byte := repeat Byte.xab n.
Definition rnd1 (n : nat) : list Byte.byte := repeat Byte.x07 n.

Definition alice : DistributedLock :=
  {| clientId := generateClientId rnd0; lockTtlSeconds := 10 |}.
Definition bob : DistributedLock :=
  {| clientId := generateClientId rnd1; lockTtlSeconds := 5 |}.

Definition empty_world : World := {| keys := ∅; sent := []; faults := [] |}.

Definition rnd2 (n : nat) : list Byte.byte := repeat Byte.xf0 n.

Definition carol : DistributedLock :=
  {| clientId := generateClientId rnd2; lockTtlSeconds := 30 |}.

(** A cluster in which [alice] holds the lock on ["r"]. *)
Definition alice_holds_r : World :=
  {| keys := {[ "lock:r" := marker alice ]}; sent := []; faults := [] |}.

(** [async () => { throw "boom" }] *)
Definition fn_boom : M value := fun w => (Raised (Thrown (VStr "boom")), w).

(** [async () => null] *)
Definition fn_null : M value := ret VNull.

(** [async () => "done"] *)
Definition fn_done : M value := ret (VStr "done").

(** The acquisition is delivered, the command after it is lost. *)
Definition second_command_lost : World :=
  {| keys := ∅; sent := [];
     faults := [None; Some (RequestError "connection lost")] |}.

(** Acquisition and write are delivered, the release is lost. *)
Definition third_command_lost : World :=
  {| keys := ∅; sent := [];
     faults := [None; None; Some (RequestError "connection lost")] |}.

(** The write is rejected, then the release is lost. *)
Definition write_and_release_fail : World :=
  {| keys := ∅; sent := [];
     faults := [None; Some (RequestError "write refused");
                Some (RequestError "connection lost")] |}.

(** The write is rejected, the release is delivered. *)
Definition write_fails : World :=
  {| keys := ∅; sent := [];
     faults := [None; Some (RequestError "write refused")] |}.

(** ** Reading an identity back

    [lower_hex] recognises the characters [0-9a-f]; [fromHex] is the
    inverse of [toString_hex] ([Buffer.from(s, "hex")]), used to show
    that the rendering loses nothing. *)

Definition lower_hex (c : ascii) : bool :=
  let n := N_of_ascii c in
  ((48 <=? n)%N && (n <=? 57)%N) || ((97 <=? n)%N && (n <=? 102)%N).

Definition unhex_digit (c : ascii) : option N :=
  let n := N_of_ascii c in
  if ((48 <=? n)%N && (n <=? 57)%N) then Some (n - 48)%N
  else if ((97 <=? n)%N && (n <=? 102)%N) then Some (n - 87)%N
  else None.

Definition unhex_byte (hi lo : ascii) : option Byte.byte :=
  match unhex_digit hi, unhex_digit lo with
  | Some h, Some l => Byte.of_N (16 * h + l)
  | _, _ => None
  end.

Fixpoint fromHex (s : string) : option (list Byte.byte) :=
  match s with
  | EmptyString => Some []
  | String hi (String lo rest) =>
      match unhex_byte hi lo, fromHex rest with
      | Some b, Some buf => Some (b :: buf)
      | _, _ => None
      end
  | String _ EmptyString => None
  end.

(** [async () => lock.safeSet(key, value, ttl)] as an operation for
    [withLock]: the boolean it resolves to, as a value. *)
Definition as_value (m : M bool) : M value :=
  fun w =>
    match m w with
    | (Returned b, w1) => (Returned (VBool b), w1)
    | (Raised e, w1) => (Raised e, w1)
    end.

(** The entry the write step of [safeSet] stores at the data key. *)
Definition data_entry (value : string) (ttl : ttl_arg) : entry :=
  {| stored := value;
     expires := match ttl with
                | star => None
                | seconds n => Some {| type := Seconds; count := n |}
                end |}.

(** During the operation the lock of [alice] expires and [bob] takes it. *)
Definition fn_overrun : M value :=
  fun w => (Returned (VStr "late"),
            with_keys (<["lock:r" := marker bob]> (keys w)) w).

(** ** Concurrent [safeSet] calls

    [safeSet] awaits three times, once on each of its commands, and does
    nothing else that can be observed between two awaits.  A call in
    flight is therefore at one of three points: about to have its
    conditional set taken by the cluster, about to have its write taken
    (it holds the lock), or, inside [finally], about to have its release
    script taken; after that it has settled.  Calls on the same name
    interleave in the order in which the cluster takes their commands. *)

Inductive phase :=
| Acquiring
| Writing
| Releasing (written : outcome unit)
| Settled (result : outcome bool).

Record call := {
  caller : DistributedLock;
  payload : string;
  lifetime : ttl_arg;
  at_phase : phase
}.

Definition moved (c : call) (p : phase) : call :=
  {| caller := caller c; payload := payload c; lifetime := lifetime c;
     at_phase := p |}.

(** [lock.safeSet(key, value, ttl)] just called. *)
Definition called (self : DistributedLock) (value : string) (ttl : ttl_arg) : call :=
  {| caller := self; payload := value; lifetime := ttl; at_phase := Acquiring |}.

(** The cluster takes the next command of the call [c] on the name
    [key], and the call runs on to its next await or to its end. *)
Definition advance (key : string) (c : call) (w : World) : call * World :=
  match at_phase c with
  | Acquiring =>
      match client_set (lockKey key) (clientId (caller c))
              (lock_options (caller c)) w with
      | (Returned lockAcquired, w1) =>
          (moved c (if negb (truthy lockAcquired)
                    then Settled (Returned false) else Writing), w1)
      | (Raised e, w1) => (moved c (Settled (Raised e)), w1)
      end
  | Writing =>
      match data_write key (payload c) (lifetime c) w with
      | (Returned _, w1) => (moved c (Releasing (Returned tt)), w1)
      | (Raised e, w1) => (moved c (Releasing (Raised e)), w1)
      end
  | Releasing written =>
      match invokeScriptWithRoute releaseLockScript
              [lockKey key; clientId (caller c)]
              (primarySlotKey (lockKey key)) w with
      | (Returned _, w1) =>
          (moved c (Settled match written with
                            | Returned _ => Returned true
                            | Raised e => Raised e
                            end), w1)
      | (Raised e, w1) => (moved c (Settled (Raised e)), w1)
      end
  | Settled _ => (c, w)
  end.

Definition in_flight (c : call) : bool :=
  match at_phase c with Settled _ => false | _ => true end.

(** The call holds the lock: it is between its acquisition and its
    release. *)
Definition inside (c : call) : bool :=
  match at_phase c with Writing | Releasing _ => true | _ => false end.

(** The call has had its write taken and has not failed since. *)
Definition wrote (c : call) : bool :=
  match at_phase c with
  | Releasing (Returned _) | Settled (Returned true) => true
  | _ => false
  end.

Definition succeeded (c : call) : bool :=
  match at_phase c with Settled (Returned true) => true | _ => false end.

(** The commands a call still has to send, at most. *)
Definition remaining (c : call) : nat :=
  match at_phase c with
  | Acquiring => 3
  | Writing => 2
  | Releasing _ => 1
  | Settled _ => 0
  end.

(** Calls on one name and the cluster they share. *)
Record pool := { calls : list call; shared : World }.

Inductive pool_step (key : string) : pool -> pool -> Prop :=
| pool_take before c after w :
    in_flight c = true ->
    pool_step key
      {| calls := before ++ c :: after; shared := w |}
      {| calls := before ++ (advance key c w).1 :: after;
         shared := (advance key c w).2 |}.

(** A call the cluster has no reason to refuse: the TTL of its manager
    is positive and its [ttl] argument is ["*"] or a positive number. *)
Definition valid_call (c : call) : Prop :=
  0 < lockTtlSeconds (caller c) /\ valid_ttl (lifetime c).

(** On a delivering transport such a call is never at a failure. *)
Definition sound_phase (c : call) : Prop :=
  match at_phase c with
  | Acquiring | Writing | Releasing (Returned _) | Settled (Returned _) => True
  | Releasing (Raised _) | Settled (Raised _) => False
  end.

(** What holds of every state of a pool of [safeSet] calls on [key]
    that started on a delivering transport with the lock free and the
    data key at [d0]. *)
Record pool_inv (key : string) (d0 : option entry) (s : pool) : Prop := {
  pinv_reliable : reliable (shared s);
  pinv_valid : Forall valid_call (calls s);
  pinv_sound : Forall sound_phase (calls s);
  pinv_marker :
    forall c, c ∈ calls s -> inside c = true ->
              keys (shared s) !! lockKey key = Some (marker (caller c));
  pinv_holders :
    length (List.filter inside (calls s))
    = match keys (shared s) !! lockKey key with Some _ => 1%nat | None => 0%nat end;
  pinv_data :
    (Forall (fun c => wrote c = false) (calls s) /\ keys (shared s) !! key = d0)
    \/ (exists c, c ∈ calls s /\ wrote c = true
                  /\ keys (shared s) !! key
                     = Some (data_entry (payload c) (lifetime c)));
  pinv_started :
    Forall (fun c => at_phase c = Acquiring) (calls s)
    \/ (exists c, c ∈ calls s /\ (inside c = true \/ succeeded c = true))
}.

(** What a call was called with; a step changes the phase only. *)
Definition arguments (c : call) : DistributedLock * string * ttl_arg :=
  (caller c, payload c, lifetime c).

(** Example 4 of [example.ts]: one manager, three [safeSet] calls on
    the same key started together. *)
Definition three_calls : list call :=
  [called alice "1" star; called alice "2" star; called alice "3" star].

(** The call holds the lock or has returned [true]. *)
Definition winner (c : call) : bool := inside c || succeeded c.

Definition refused (c : call) : bool :=
  match at_phase c with Settled (Returned false) => true | _ => false end.

(** The cluster takes the next command of the [i]-th call of the pool. *)
Definition take_at (key : string) (i : nat) (s : pool) : pool :=
  match calls s !! i with
  | Some c =>
      {| calls := <[i := (advance key c (shared s)).1]> (calls s);
         shared := (advance key c (shared s)).2 |}
  | None => s
  end.

(** Example 4 with the three acquisitions taken first, in call order,
    and then the two remaining commands of the first call. *)
Definition three_acquired : pool :=
  take_at "counter" 2
    (take_at "counter" 1
       (take_at "counter" 0 {| calls := three_calls; shared := empty_world |})).

Definition three_settled : pool :=
  take_at "counter" 0 (take_at "counter" 0 three_acquired).

(** A manager constructed with a TTL of 0 seconds. *)
Definition dave : DistributedLock :=
  {| clientId := generateClientId rnd2; lockTtlSeconds := 0 |}.

(** ** Smoke tests on a small cluster *)

Example clientId_alice : clientId alice = "abababababababababababababababab".
Proof. reflexivity. Qed.

Example acquire_then_contend :
  let w := snd (acquireLock alice "r" empty_world) in
  fst (acquireLock alice "r" empty_world) = Returned true
  /\ fst (acquireLock bob "r" w) = Returned false
  /\ fst (releaseLock bob "r" w) = Returned false
  /\ fst (releaseLock alice "r" w) = Returned true.
Proof. vm_compute. auto. Qed.

(** Two [safeSet] calls one after the other: both succeed, the second
    value stays, and the lock key is gone. *)
Example safeSet_twice :
  let w1 := (safeSet alice "k" "v1" star empty_world).2 in
  let w2 := (safeSet bob "k" "v2" (seconds 60) w1).2 in
  (safeSet alice "k" "v1" star empty_world).1 = Returned true
  /\ (safeSet bob "k" "v2" (seconds 60) w1).1 = Returned true
  /\ keys w2 !! "k"
     = Some {| stored := "v2";
               expires := Some {| type := Seconds; count := 60 |} |}
  /\ keys w2 !! "lock:k" = None
  /\ length (sent w2) = 6%nat.
Proof. vm_compute. auto. Qed.

(** [withLock] around an operation that throws, on a delivering
    transport: the lock is released and the thrown value reaches the
    caller. *)
Example withLock_boom :
  (withLock alice "r" fn_boom empty_world).1 = Raised (Thrown (VStr "boom"))
  /\ keys (withLock alice "r" fn_boom empty_world).2 !! "lock:r" = None.
Proof. vm_compute. auto. Qed.

(** ** Equations of the cluster commands *)

Lemma delivers_cases w :
  delivers w \/ exists e fs, faults w = Some e :: fs.
Proof.
  unfold delivers. destruct (faults w) as [|[e|] fs]; eauto.
Qed.

Lemma send_delivered c w :
  delivers w -> send c w = (Returned tt, posted c w).
Proof.
  unfold delivers, send. destruct (faults w) as [|[e|] fs]; intros H; [done|destruct H|done].
Qed.

Lemma send_failed c w e fs :
  faults w = Some e :: fs -> send c w = (Raised e, posted c w).
Proof. unfold send. intros ->. reflexivity. Qed.

Lemma client_set_delivered key v o w :
  delivers w ->
  client_set key v o w =
    ((do_set key v o (keys w)).1,
     with_keys (do_set key v o (keys w)).2 (posted (CmdSet key v o) w)).
Proof.
  intros H. unfold client_set, bind. rewrite (send_delivered _ _ H).
  simpl. destruct (do_set key v o (keys w)); reflexivity.
Qed.

Lemma client_set_failed key v o w e fs :
  faults w = Some e :: fs ->
  client_set key v o w = (Raised e, posted (CmdSet key v o) w).
Proof.
  intros H. unfold client_set, bind. rewrite (send_failed _ _ _ _ H). reflexivity.
Qed.

Lemma call_get key ks :
  Lua.call "get" key ks =
    (Some (match ks !! key with
           | Some e => Lua.Str (stored e)
           | None => Lua.Bool false
           end), ks).
Proof. unfold Lua.call. rewrite decide_True by reflexivity. reflexivity. Qed.

Lemma call_del key ks :
  Lua.call "del" key ks =
    (Some (Lua.Num (match ks !! key with Some _ => 1 | None => 0 end)),
     delete key ks).
Proof.
  unfold Lua.call. rewrite decide_False by discriminate.
  rewrite decide_True by reflexivity. reflexivity.
Qed.

(** The release script on its two arguments: one compare, then at most
    one delete. *)
Lemma releaseLockScript_exec (k id : string) (ks : gmap string entry) :
  Lua.exec (code releaseLockScript) [k; id] ks =
    if decide (stored <$> ks !! k = Some id)
    then (Some (Lua.Num 1), delete k ks)
    else (Some (Lua.Num 0), ks).
Proof.
  cbn [releaseLockScript code Lua.exec Lua.eval Lua.argv nth_error].
  rewrite call_get.
  destruct (ks !! k) as [e|] eqn:Hk; cbn [fmap option_fmap option_map].
  - destruct (decide (Some (stored e) = Some id)) as [Heq|Hne].
    + injection Heq as ->. rewrite bool_decide_eq_true_2 by reflexivity.
      cbn [Lua.truthy]. rewrite call_del, Hk. reflexivity.
    + rewrite bool_decide_eq_false_2 by congruence. reflexivity.
  - rewrite decide_False by discriminate.
    rewrite bool_decide_eq_false_2 by discriminate. reflexivity.
Qed.

(** *** [releaseLock], by what the transport does with its one command *)

Lemma releaseLock_delivered self key w :
  delivers w ->
  releaseLock self key w =
    if decide (held_by self key w)
    then (Returned true,
          with_keys (delete (lockKey key) (keys w))
            (posted (release_command self key) w))
    else (Returned false, posted (release_command self key) w).
Proof.
  intros H. unfold releaseLock, invokeScriptWithRoute, bind.
  rewrite (send_delivered _ _ H).
  cbn [keys posted]. rewrite releaseLockScript_exec.
  unfold held_by, release_command.
  destruct (decide (stored <$> keys w !! lockKey key = Some (clientId self)));
    reflexivity.
Qed.

Lemma releaseLock_failed self key w e fs :
  faults w = Some e :: fs ->
  releaseLock self key w = (Raised e, posted (release_command self key) w).
Proof.
  intros H. unfold releaseLock, invokeScriptWithRoute, bind.
  rewrite (send_failed _ _ _ _ H). reflexivity.
Qed.

(** *** [acquireLock], likewise *)

Lemma do_set_lock self k ks :
  0 < lockTtlSeconds self ->
  do_set k (clientId self) (lock_options self) ks =
    match ks !! k with
    | None => (Returned (Some "OK"), <[k := marker self]> ks)
    | Some _ => (Returned None, ks)
    end.
Proof.
  intros Hpos. unfold do_set, valid_expiry. cbn.
  rewrite (proj2 (Z.ltb_lt _ _) Hpos). cbn. destruct (ks !! k); reflexivity.
Qed.

Lemma do_set_lock_refused self k ks :
  ~ 0 < lockTtlSeconds self ->
  do_set k (clientId self) (lock_options self) ks = (Raised invalid_expire_time, ks).
Proof.
  intros Hneg. unfold do_set, valid_expiry. cbn.
  rewrite (proj2 (Z.ltb_ge _ _)) by lia. reflexivity.
Qed.

Lemma acquireLock_delivered self key w :
  0 < lockTtlSeconds self ->
  delivers w ->
  acquireLock self key w =
    match keys w !! lockKey key with
    | None =>
        (Returned true,
         with_keys (<[lockKey key := marker self]> (keys w))
           (posted (acquire_command self key) w))
    | Some _ => (Returned false, posted (acquire_command self key) w)
    end.
Proof.
  intros Hpos H. unfold acquireLock, bind.
  rewrite (client_set_delivered _ _ _ _ H), (do_set_lock _ _ _ Hpos).
  unfold acquire_command.
  destruct (keys w !! lockKey key); reflexivity.
Qed.

(** A TTL that is not positive: the cluster refuses the command. *)
Lemma acquireLock_refused self key w :
  ~ 0 < lockTtlSeconds self ->
  delivers w ->
  acquireLock self key w
  = (Raised invalid_expire_time, posted (acquire_command self key) w).
Proof.
  intros Hneg H. unfold acquireLock, bind.
  rewrite (client_set_delivered _ _ _ _ H), (do_set_lock_refused _ _ _ Hneg).
  reflexivity.
Qed.

(** The acquisition either raised and changed nothing, or was delivered
    with a positive TTL. *)
Lemma acquireLock_cases self key w :
  (exists e, acquireLock self key w
             = (Raised e, posted (acquire_command self key) w))
  \/ (delivers w /\ 0 < lockTtlSeconds self).
Proof.
  destruct (delivers_cases w) as [Hd|(e & fs & Hf)].
  - destruct (decide (0 < lockTtlSeconds self)) as [Hpos|Hneg]; [by right|].
    left. eexists. by apply acquireLock_refused.
  - left. exists e. unfold acquireLock, bind.
    by rewrite (client_set_failed _ _ _ _ _ _ Hf).
Qed.

Lemma acquireLock_failed self key w e fs :
  faults w = Some e :: fs ->
  acquireLock self key w = (Raised e, posted (acquire_command self key) w).
Proof.
  intros H. unfold acquireLock, bind.
  rewrite (client_set_failed _ _ _ _ _ _ H). reflexivity.
Qed.

(** An acquisition that returned was delivered, with a positive TTL. *)
Lemma acquireLock_returned self key w b :
  (acquireLock self key w).1 = Returned b -> delivers w.
Proof.
  intros H. destruct (delivers_cases w) as [?|(e & fs & Hf)]; [done|].
  rewrite (acquireLock_failed _ _ _ _ _ Hf) in H. discriminate.
Qed.

Lemma acquireLock_returned_ttl self key w b :
  (acquireLock self key w).1 = Returned b -> 0 < lockTtlSeconds self.
Proof.
  intros H. destruct (acquireLock_cases self key w) as [[e He]|[_ Hpos]]; [|done].
  rewrite He in H. discriminate.
Qed.

Lemma releaseLock_returned self key w b :
  (releaseLock self key w).1 = Returned b -> delivers w.
Proof.
  intros H. destruct (delivers_cases w) as [?|(e & fs & Hf)]; [done|].
  rewrite (releaseLock_failed _ _ _ _ _ Hf) in H. discriminate.
Qed.

Lemma lockKey_length key :
  String.length (lockKey key) = (5 + String.length key)%nat.
Proof. reflexivity. Qed.

Lemma lockKey_neq key : lockKey key <> key.
Proof.
  intros H. apply (f_equal String.length) in H.
  rewrite lockKey_length in H. lia.
Qed.

(** ** Release and acquisition *)

(** C1. [releaseLock] sends one command, the release script on the lock
    key, and the cluster runs it as one step: the key is deleted and
    [true] returned exactly when the value stored at the lock key is this
    instance's identity; when the key is absent or carries another
    identity the key space is unchanged and [false] is returned.  Hence
    a second release by the owner right after a successful one returns
    [false], and a release by a non-owner leaves the marker in place. *)
Theorem releaseLock_compare_and_delete
  (self : DistributedLock) (key : string) (w : World) :
  delivers w ->
  let r := (releaseLock self key w).1 in
  let w' := (releaseLock self key w).2 in
  sent w' = sent w ++ [CmdScript releaseLockScript [lockKey key; clientId self]
                         (primarySlotKey (lockKey key))]
  /\ (r = Returned true <->
      stored <$> keys w !! lockKey key = Some (clientId self))
  /\ (stored <$> keys w !! lockKey key = Some (clientId self) ->
      r = Returned true /\ keys w' = delete (lockKey key) (keys w))
  /\ (stored <$> keys w !! lockKey key <> Some (clientId self) ->
      r = Returned false /\ keys w' = keys w)
  /\ (r = Returned false -> keys w' = keys w)
  /\ (r = Returned true -> delivers w' ->
      (releaseLock self key w').1 = Returned false
      /\ keys (releaseLock self key w').2 = keys w')
  /\ (forall e, keys w !! lockKey key = Some e ->
      stored e <> clientId self ->
      r = Returned false /\ keys w' !! lockKey key = Some e).
Proof.
  intros Hd r w'. subst r w'.
  rewrite (releaseLock_delivered _ _ _ Hd). unfold held_by.
  destruct (decide (stored <$> keys w !! lockKey key = Some (clientId self)))
    as [Hown|Hnot]; cbn [fst snd].
  - split; [reflexivity|]. split; [tauto|]. split; [auto|].
    split; [tauto|]. split; [discriminate|]. split.
    + intros _ Hd'. rewrite (releaseLock_delivered _ _ _ Hd').
      rewrite decide_False; [done|].
      unfold held_by. cbn [keys with_keys]. rewrite lookup_delete_eq. discriminate.
    + intros e He Hne. rewrite He in Hown. cbn in Hown. congruence.
  - split; [reflexivity|]. split; [split; [discriminate|tauto]|].
    split; [tauto|]. split; [auto|]. split; [auto|]. split; [discriminate|].
    intros e He _. cbn [keys posted]. auto.
Qed.

(** C3. For a manager whose TTL is positive, as the state of a manager
    is specified, and a delivered command: [acquireLock] returns [true]
    exactly when its conditional set found the lock key absent and wrote
    the marker; whenever the lock key exists it returns [false] and
    leaves the key space as it was, also when the marker there carries
    this very instance's identity. *)
Theorem acquireLock_iff_newly_written
  (self : DistributedLock) (key : string) (w : World) :
  0 < lockTtlSeconds self ->
  delivers w ->
  let r := (acquireLock self key w).1 in
  let w' := (acquireLock self key w).2 in
  (r = Returned true <-> keys w !! lockKey key = None)
  /\ (keys w !! lockKey key = None ->
      r = Returned true
      /\ keys w' = <[lockKey key := marker self]> (keys w))
  /\ (is_Some (keys w !! lockKey key) ->
      r = Returned false /\ keys w' = keys w)
  /\ (r = Returned false ->
      is_Some (keys w !! lockKey key) /\ keys w' = keys w)
  /\ (stored <$> keys w !! lockKey key = Some (clientId self) ->
      r = Returned false /\ keys w' = keys w).
Proof.
  intros Hpos Hd r w'. subst r w'.
  rewrite (acquireLock_delivered _ _ _ Hpos Hd).
  destruct (keys w !! lockKey key) as [e|] eqn:Hk; cbn [fst snd].
  - split; [split; discriminate|]. split; [discriminate|].
    split; [auto|]. split; [eauto|auto].
  - split; [tauto|]. split; [auto|].
    split; [intros [? ?]; discriminate|]. split; discriminate.
Qed.

Lemma releaseLock_compare_and_delete_witness :
  delivers alice_holds_r
  /\ (releaseLock alice "r" alice_holds_r).1 = Returned true
  /\ keys (releaseLock alice "r" alice_holds_r).2 !! "lock:r" = None
  /\ (releaseLock bob "r" alice_holds_r).1 = Returned false
  /\ keys (releaseLock bob "r" alice_holds_r).2 !! "lock:r" = Some (marker alice).
Proof.
  destruct (releaseLock_compare_and_delete alice "r" alice_holds_r I)
    as (_ & _ & Hown & _ & _ & _ & _).
  destruct (releaseLock_compare_and_delete bob "r" alice_holds_r I)
    as (_ & _ & _ & _ & _ & _ & Hother).
  destruct (Hown eq_refl) as [Hr Hk].
  destruct (Hother (marker alice) eq_refl ltac:(discriminate)) as [Hr' Hk'].
  split; [exact I|]. split; [exact Hr|]. split.
  - rewrite Hk. apply lookup_delete_eq.
  - split; [exact Hr'|exact Hk'].
Defined.

Lemma acquireLock_iff_newly_written_witness :
  0 < lockTtlSeconds alice
  /\ delivers empty_world
  /\ (acquireLock alice "r" empty_world).1 = Returned true
  /\ delivers alice_holds_r
  /\ (acquireLock alice "r" alice_holds_r).1 = Returned false
  /\ keys (acquireLock alice "r" alice_holds_r).2 = keys alice_holds_r.
Proof.
  destruct (acquireLock_iff_newly_written alice "r" empty_world eq_refl I)
    as (_ & Hnew & _ & _ & _).
  destruct (acquireLock_iff_newly_written alice "r" alice_holds_r eq_refl I)
    as (_ & _ & _ & _ & Hre).
  split; [reflexivity|].
  split; [exact I|]. split; [exact (proj1 (Hnew eq_refl))|].
  split; [exact I|]. exact (Hre eq_refl).
Defined.

(** ** Concurrent acquisition: the invariant of a race *)

Lemma reliable_delivers w : reliable w -> delivers w.
Proof.
  unfold reliable, delivers. destruct (faults w) as [|[e|] fs]; [done| |done].
  intros H. apply Forall_cons in H as [? _]. discriminate.
Qed.

Lemma reliable_posted c w : reliable w -> reliable (posted c w).
Proof.
  unfold reliable. cbn. destruct (faults w); [done|].
  intros H. by apply Forall_cons in H as [_ ?].
Qed.

Lemma race_inv_start key ms w :
  Forall (fun m => 0 < lockTtlSeconds m) ms ->
  reliable w -> keys w !! lockKey key = None -> race_inv key ms (start ms w).
Proof.
  intros Hpos Hr Hk. split; cbn; [done|done| |done|].
  - by rewrite app_nil_r.
  - by rewrite Hk.
Qed.

Lemma race_inv_step key ms s s' :
  race_inv key ms s -> race_step key s s' -> race_inv key ms s'.
Proof.
  intros [Hr Hpos Hc Hs Hw] Hstep. destruct Hstep as [before m after done w].
  cbn in *.
  apply Forall_app in Hpos as [Hpb Hpos]. apply Forall_cons in Hpos as [Hpm Hpa].
  pose proof (acquireLock_delivered m key w Hpm (reliable_delivers _ Hr)) as Heq.
  split; cbn.
  - rewrite Heq. destruct (keys w !! lockKey key); cbn; by apply reliable_posted.
  - by apply Forall_app.
  - rewrite fmap_app. cbn. rewrite <- Hc.
    rewrite <- !(assoc_L (++)). f_equiv. rewrite (assoc_L (++)).
    rewrite <- Permutation_middle. rewrite Permutation_app_comm. reflexivity.
  - rewrite !List.filter_app, !length_app. cbn.
    rewrite Heq. destruct (keys w !! lockKey key); cbn; lia.
  - rewrite Heq. destruct (keys w !! lockKey key) as [e|] eqn:Hk; cbn.
    + rewrite Hk. rewrite List.filter_app, length_app. cbn. lia.
    + rewrite lookup_insert_eq. subst done. reflexivity.
Qed.

Lemma race_inv_rtc key ms s s' :
  rtc (race_step key) s s' -> race_inv key ms s -> race_inv key ms s'.
Proof.
  induction 1 as [|s1 s2 s3 Hstep _ IH]; [done|].
  intros Hinv. apply IH. eapply race_inv_step; eauto.
Qed.

(** Every race can run to completion, whichever calls already settled. *)
Lemma race_finishes key pend done w :
  exists final,
    rtc (race_step key) {| pending := pend; settled := done; cluster := w |} final
    /\ pending final = [].
Proof.
  revert done w. induction pend as [|m pend IH]; intros done w.
  - eexists. split; [apply rtc_refl|reflexivity].
  - destruct (IH (done ++ [(m, (acquireLock m key w).1)]) (acquireLock m key w).2)
      as (final & Hrun & Hend).
    exists final. split; [|exact Hend].
    eapply rtc_l; [|exact Hrun]. apply (race_take key [] m pend done w).
Qed.

(** A finished race: one winner, everybody else denied. *)
Lemma race_outcome key ms w final :
  ms <> [] ->
  Forall (fun m => 0 < lockTtlSeconds m) ms ->
  reliable w ->
  keys w !! lockKey key = None ->
  rtc (race_step key) (start ms w) final ->
  pending final = [] ->
  (settled final).*1 ≡ₚ ms
  /\ length (List.filter won (settled final)) = 1%nat
  /\ length (List.filter lost (settled final)) = (length ms - 1)%nat.
Proof.
  intros Hne Hpos Hr Hk Hrun Hend.
  destruct (race_inv_rtc key ms _ _ Hrun (race_inv_start key ms w Hpos Hr Hk))
    as [_ _ Hc Hs Hw].
  rewrite Hend in Hc. cbn in Hc.
  assert (Hlen : length (settled final) = length ms).
  { rewrite <- Hc. by rewrite length_fmap. }
  split; [exact Hc|].
  destruct (keys (cluster final) !! lockKey key).
  - split; [exact Hw|lia].
  - rewrite Hw in Hlen. destruct ms; [done|discriminate].
Qed.

(** C2. Let N >= 2 managers of distinct identities, each with a
    positive TTL as the state of a manager is specified, call
    [acquireLock] concurrently on a name whose lock key is absent, over
    a transport that delivers.  In whatever order the cluster takes the
    N commands, the race runs to completion, every caller gets one
    outcome, exactly one outcome is [true] and the other N-1 are
    [false]. *)
Theorem mutual_exclusion (key : string) (ms : list DistributedLock) (w : World) :
  (2 <= length ms)%nat ->
  NoDup (clientId <$> ms) ->
  Forall (fun m => 0 < lockTtlSeconds m) ms ->
  keys w !! lockKey key = None ->
  reliable w ->
  (exists final,
      rtc (race_step key) (start ms w) final /\ pending final = [])
  /\ (forall final,
        rtc (race_step key) (start ms w) final ->
        pending final = [] ->
        (settled final).*1 ≡ₚ ms
        /\ length (List.filter won (settled final)) = 1%nat
        /\ length (List.filter lost (settled final)) = (length ms - 1)%nat).
Proof.
  intros HN _ Hpos Hk Hr. split.
  - apply race_finishes.
  - intros final Hrun Hend.
    apply (race_outcome key ms w final); try assumption.
    intros ->. cbn in HN. lia.
Qed.

Lemma mutual_exclusion_witness :
  (2 <= length [alice; bob; carol])%nat
  /\ NoDup (clientId <$> [alice; bob; carol])
  /\ Forall (fun m => 0 < lockTtlSeconds m) [alice; bob; carol]
  /\ keys empty_world !! lockKey "r" = None
  /\ reliable empty_world
  /\ (exists final,
        rtc (race_step "r") (start [alice; bob; carol] empty_world) final
        /\ pending final = []
        /\ length (List.filter won (settled final)) = 1%nat
        /\ length (List.filter lost (settled final)) = 2%nat).
Proof.
  assert (H2 : (2 <= length [alice; bob; carol])%nat) by (cbn; lia).
  assert (Hnd : NoDup (clientId <$> [alice; bob; carol])).
  { apply (bool_decide_unpack _). vm_compute. exact I. }
  assert (Hpos : Forall (fun m => 0 < lockTtlSeconds m) [alice; bob; carol])
    by (repeat constructor).
  assert (Hk : keys empty_world !! lockKey "r" = None) by reflexivity.
  assert (Hr : reliable empty_world) by constructor.
  destruct (mutual_exclusion "r" [alice; bob; carol] empty_world
              H2 Hnd Hpos Hk Hr)
    as [(final & Hrun & Hend) Hall].
  destruct (Hall final Hrun Hend) as (_ & Hwon & Hlost).
  repeat (split; [assumption|]).
  exists final. auto.
Defined.

(** ** The guarded operations: [withLock] and [safeSet] *)

Lemma withLock_eq self key fn w :
  withLock self key fn w =
    match acquireLock self key w with
    | (Raised e, w1) => (Raised e, w1)
    | (Returned false, w1) => (Returned VNull, w1)
    | (Returned true, w1) =>
        (after_cleanup (fn w1).1 (releaseLock self key (fn w1).2).1,
         (releaseLock self key (fn w1).2).2)
    end.
Proof.
  unfold withLock, bind at 1.
  destruct (acquireLock self key w) as [[[|]|e] w1]; cbn; try reflexivity.
  unfold try_finally. destruct (fn w1) as [r w2]. cbn.
  destruct (releaseLock self key w2) as [[b|e] w3]; reflexivity.
Qed.

Lemma acquireLock_client_set self key w :
  acquireLock self key w =
    match client_set (lockKey key) (clientId self) (lock_options self) w with
    | (Returned r, w1) => (Returned (truthy r), w1)
    | (Raised e, w1) => (Raised e, w1)
    end.
Proof.
  unfold acquireLock, bind, ret.
  destruct (client_set _ _ _ w) as [[r|e] w1]; [|reflexivity].
  by rewrite negb_involutive.
Qed.

Lemma releaseLock_invoke self key w :
  releaseLock self key w =
    match invokeScriptWithRoute releaseLockScript [lockKey key; clientId self]
            (primarySlotKey (lockKey key)) w with
    | (Returned result, w1) => (Returned (bool_decide (result = VNum 1)), w1)
    | (Raised e, w1) => (Raised e, w1)
    end.
Proof. reflexivity. Qed.

Lemma safeSet_eq self key value ttl w :
  safeSet self key value ttl w =
    match acquireLock self key w with
    | (Raised e, w1) => (Raised e, w1)
    | (Returned false, w1) => (Returned false, w1)
    | (Returned true, w1) =>
        let wr := data_write key value ttl w1 in
        (after_cleanup
           (match wr.1 with Returned _ => Returned true | Raised e => Raised e end)
           (releaseLock self key wr.2).1,
         (releaseLock self key wr.2).2)
    end.
Proof.
  rewrite acquireLock_client_set. unfold safeSet, bind.
  destruct (client_set (lockKey key) (clientId self) (lock_options self) w)
    as [[r|e] w1]; [|reflexivity].
  destruct (truthy r); cbn [negb]; [|reflexivity].
  cbn zeta. rewrite releaseLock_invoke. unfold try_finally, data_write.
  replace (match ttl with
           | star => client_set key value no_options
           | seconds n =>
               client_set key value
                 {| expiry := Some {| type := Seconds; count := n |};
                    conditionalSet := None |}
           end) with (client_set key value (write_options ttl))
    by (destruct ttl; reflexivity).
  destruct (client_set key value (write_options ttl) w1) as [[r2|e2] w2];
    cbn [fst snd ret];
    destruct (invokeScriptWithRoute releaseLockScript
                [lockKey key; clientId self] (primarySlotKey (lockKey key)) w2)
      as [[v|e3] w3]; reflexivity.
Qed.

(** *** What each method sends, and what it leaves in the key space *)

Lemma releaseLock_sent self key w :
  sent (releaseLock self key w).2 = sent w ++ [release_command self key].
Proof.
  destruct (delivers_cases w) as [Hd|(e & fs & Hf)].
  - rewrite (releaseLock_delivered _ _ _ Hd).
    destruct (decide (held_by self key w)); reflexivity.
  - by rewrite (releaseLock_failed _ _ _ _ _ Hf).
Qed.

Lemma acquireLock_sent self key w :
  sent (acquireLock self key w).2 = sent w ++ [acquire_command self key].
Proof.
  destruct (acquireLock_cases self key w) as [[e He]|[Hd Hpos]].
  - by rewrite He.
  - rewrite (acquireLock_delivered _ _ _ Hpos Hd).
    destruct (keys w !! lockKey key); reflexivity.
Qed.

(** The write either raised and changed nothing, or was delivered with
    an expiry the cluster accepts and stored the entry. *)
Lemma data_write_cases key value ttl w :
  (exists e, data_write key value ttl w
             = (Raised e, posted (CmdSet key value (write_options ttl)) w))
  \/ (delivers w /\ valid_ttl ttl
      /\ data_write key value ttl w
         = (Returned (Some "OK"),
            with_keys (<[key := data_entry value ttl]> (keys w))
              (posted (CmdSet key value (write_options ttl)) w))).
Proof.
  unfold data_write.
  destruct (delivers_cases w) as [Hd|(e & fs & Hf)].
  - rewrite (client_set_delivered _ _ _ _ Hd). unfold do_set, valid_expiry.
    destruct ttl as [|n]; cbn.
    + right. done.
    + destruct (0 <? n) eqn:Hn; cbn.
      * right. apply Z.ltb_lt in Hn. done.
      * left. by eexists.
  - left. exists e. by rewrite (client_set_failed _ _ _ _ _ _ Hf).
Qed.

Lemma data_write_sent key value ttl w :
  sent (data_write key value ttl w).2
  = sent w ++ [CmdSet key value (write_options ttl)].
Proof.
  destruct (data_write_cases key value ttl w) as [[e He]|(_ & _ & He)];
    by rewrite He.
Qed.

(** The write step touches the data key only. *)
Lemma data_write_other key value ttl w k :
  k <> key -> keys (data_write key value ttl w).2 !! k = keys w !! k.
Proof.
  intros Hne.
  destruct (data_write_cases key value ttl w) as [[e He]|(_ & _ & He)];
    rewrite He; [done|].
  cbn [snd keys with_keys]. by rewrite lookup_insert_ne.
Qed.

Lemma acquireLock_true self key w :
  (acquireLock self key w).1 = Returned true ->
  keys w !! lockKey key = None
  /\ keys (acquireLock self key w).2 = <[lockKey key := marker self]> (keys w).
Proof.
  intros H. pose proof (acquireLock_returned _ _ _ _ H) as Hd.
  pose proof (acquireLock_returned_ttl _ _ _ _ H) as Hpos.
  rewrite (acquireLock_delivered _ _ _ Hpos Hd) in *.
  destruct (keys w !! lockKey key); [discriminate|done].
Qed.

Lemma acquireLock_false self key w :
  (acquireLock self key w).1 = Returned false ->
  is_Some (keys w !! lockKey key)
  /\ keys (acquireLock self key w).2 = keys w.
Proof.
  intros H. pose proof (acquireLock_returned _ _ _ _ H) as Hd.
  pose proof (acquireLock_returned_ttl _ _ _ _ H) as Hpos.
  rewrite (acquireLock_delivered _ _ _ Hpos Hd) in *.
  destruct (keys w !! lockKey key); [eauto|discriminate].
Qed.

Lemma acquireLock_not_true self key w :
  (acquireLock self key w).1 <> Returned true ->
  keys (acquireLock self key w).2 = keys w.
Proof.
  intros H. destruct (acquireLock_cases self key w) as [[e He]|[Hd Hpos]].
  - by rewrite He.
  - rewrite (acquireLock_delivered _ _ _ Hpos Hd) in *.
    destruct (keys w !! lockKey key); [done|]. by destruct H.
Qed.


Lemma releaseLock_held self key w b :
  held_by self key w ->
  (releaseLock self key w).1 = Returned b ->
  b = true /\ keys (releaseLock self key w).2 !! lockKey key = None.
Proof.
  intros Hh H. pose proof (releaseLock_returned _ _ _ _ H) as Hd.
  rewrite (releaseLock_delivered _ _ _ Hd) in *.
  rewrite decide_True in * by done. cbn in *.
  split; [congruence|apply lookup_delete_eq].
Qed.

(** ** [withLock] *)

(** C4, as the claim states it, fails: [alice] acquires, the operation
    throws ["boom"], the release command is lost in transport, and the
    caller of [withLock] observes the transport error, not ["boom"]. *)
Lemma withLock_fn_failure_replaced :
  (acquireLock alice "r" second_command_lost).1 = Returned true
  /\ (fn_boom (acquireLock alice "r" second_command_lost).2).1
     = Raised (Thrown (VStr "boom"))
  /\ (withLock alice "r" fn_boom second_command_lost).1
     = Raised (RequestError "connection lost")
  /\ (withLock alice "r" fn_boom second_command_lost).1
     <> Raised (Thrown (VStr "boom")).
Proof. vm_compute. repeat split; discriminate. Qed.

(** C4, amended.  If [acquireLock] is denied, [withLock] returns [null]
    and the world is the one the acquisition attempt left, whatever [fn]
    is: [fn] is not run.  If [acquireLock] succeeds, [fn] runs and the
    release command is sent after it, on normal completion and on
    failure alike, before [withLock] settles; when that release call
    completes, what [fn] returned or raised is what the caller gets, and
    when the release call itself fails, its failure is what the caller
    gets. *)
Theorem withLock_release_on_every_exit
  (self : DistributedLock) (key : string) (fn : M value) (w : World) :
  let a := acquireLock self key w in
  let f := fn a.2 in
  let rel := releaseLock self key f.2 in
  let out := withLock self key fn w in
  (a.1 = Returned false -> out = (Returned VNull, a.2))
  /\ (a.1 = Returned true ->
      out.2 = rel.2
      /\ sent out.2 = sent f.2 ++ [CmdScript releaseLockScript
                                    [lockKey key; clientId self]
                                    (primarySlotKey (lockKey key))]
      /\ (forall v b, f.1 = Returned v -> rel.1 = Returned b -> out.1 = Returned v)
      /\ (forall e b, f.1 = Raised e -> rel.1 = Returned b -> out.1 = Raised e)
      /\ (forall e', rel.1 = Raised e' -> out.1 = Raised e')).
Proof.
  cbv zeta. rewrite withLock_eq.
  destruct (acquireLock self key w) as [[[|]|e] w1]; cbn [fst snd];
    (split; [try discriminate|try discriminate]).
  - intros _. split; [reflexivity|].
    split; [apply releaseLock_sent|].
    repeat split.
    + intros v b Hf Hr. by rewrite Hf, Hr.
    + intros e b Hf Hr. by rewrite Hf, Hr.
    + intros e' Hr. by rewrite Hr.
  - reflexivity.
Qed.

Lemma withLock_release_on_every_exit_witness :
  (withLock bob "r" fn_boom alice_holds_r).1 = Returned VNull
  /\ sent (withLock bob "r" fn_boom alice_holds_r).2
     = [CmdSet "lock:r" (clientId bob) (lock_options bob)]
  /\ (withLock alice "r" fn_boom empty_world).1 = Raised (Thrown (VStr "boom"))
  /\ (withLock alice "r" fn_done empty_world).1 = Returned (VStr "done")
  /\ sent (withLock alice "r" fn_boom empty_world).2
     = [CmdSet "lock:r" (clientId alice) (lock_options alice);
        CmdScript releaseLockScript ["lock:r"; clientId alice]
          (primarySlotKey "lock:r")]
  /\ (withLock alice "r" fn_boom second_command_lost).1
     = Raised (RequestError "connection lost").
Proof.
  destruct (withLock_release_on_every_exit bob "r" fn_boom alice_holds_r)
    as [Hdenied _].
  destruct (withLock_release_on_every_exit alice "r" fn_boom empty_world)
    as [_ Hboom].
  destruct (withLock_release_on_every_exit alice "r" fn_done empty_world)
    as [_ Hdone].
  destruct (withLock_release_on_every_exit alice "r" fn_boom second_command_lost)
    as [_ Hlost].
  specialize (Hdenied eq_refl).
  destruct (Hboom eq_refl) as (_ & Hsent & _ & Hraise & _).
  destruct (Hdone eq_refl) as (_ & _ & Hret & _ & _).
  destruct (Hlost eq_refl) as (_ & _ & _ & _ & Hrel).
  split; [by rewrite Hdenied|]. split; [by rewrite Hdenied|].
  split; [exact (Hraise _ true eq_refl eq_refl)|].
  split; [exact (Hret _ true eq_refl eq_refl)|].
  split; [exact Hsent|]. exact (Hrel _ eq_refl).
Defined.

(** ** [safeSet] *)

(** After a successful acquisition the write step leaves the marker of
    this instance at the lock key. *)
Lemma held_after_write self key value ttl w :
  (acquireLock self key w).1 = Returned true ->
  held_by self key (data_write key value ttl (acquireLock self key w).2).2.
Proof.
  intros Ha. destruct (acquireLock_true _ _ _ Ha) as [_ Hk].
  unfold held_by. rewrite data_write_other by apply lockKey_neq.
  rewrite Hk, lookup_insert_eq. reflexivity.
Qed.

(** C5, as the claim states it, fails: the lock is acquired and the
    write to ["k"] completes, the release command is then lost in
    transport; [safeSet] does not return [true], it raises, and the
    marker is still in place when it does. *)
Lemma safeSet_written_but_not_true :
  let a := acquireLock alice "k" third_command_lost in
  let wr := data_write "k" "v" star a.2 in
  let out := safeSet alice "k" "v" star third_command_lost in
  a.1 = Returned true
  /\ wr.1 = Returned (Some "OK")
  /\ keys out.2 !! "k" = Some {| stored := "v"; expires := None |}
  /\ out.1 = Raised (RequestError "connection lost")
  /\ out.1 <> Returned true
  /\ keys out.2 !! lockKey "k" = Some (marker alice).
Proof. vm_compute. repeat split; discriminate. Qed.

(** C5, amended.  [safeSet] returns [true] exactly when the lock was
    acquired, the write completed and the release call completed.  When
    the lock is denied it returns [false] having sent the acquisition
    command only, and the key space is as before.  When the lock was
    acquired, the write command and then the release command are sent
    before [safeSet] returns or propagates, whatever the write did, and
    a release call that completes leaves the lock key absent. *)
Theorem safeSet_outcome
  (self : DistributedLock) (key value : string) (ttl : ttl_arg) (w : World) :
  let a := acquireLock self key w in
  let wr := data_write key value ttl a.2 in
  let rel := releaseLock self key wr.2 in
  let out := safeSet self key value ttl w in
  (out.1 = Returned true <->
   a.1 = Returned true
   /\ (exists r, wr.1 = Returned r)
   /\ (exists b, rel.1 = Returned b))
  /\ (a.1 = Returned false ->
      out.1 = Returned false
      /\ sent out.2
         = sent w ++ [CmdSet (lockKey key) (clientId self) (lock_options self)]
      /\ keys out.2 = keys w)
  /\ (a.1 = Returned true ->
      sent out.2
      = sent a.2 ++ [CmdSet key value (write_options ttl);
                     CmdScript releaseLockScript [lockKey key; clientId self]
                       (primarySlotKey (lockKey key))]
      /\ (forall b, rel.1 = Returned b ->
          b = true /\ keys out.2 !! lockKey key = None)).
Proof.
  cbv zeta. rewrite safeSet_eq.
  pose proof (acquireLock_sent self key w) as Hsent.
  pose proof (held_after_write self key value ttl w) as Hheld.
  pose proof (acquireLock_not_true self key w) as Hkeys.
  destruct (acquireLock self key w) as [[[|]|e] w1]; cbn [fst snd] in *.
  - cbv zeta. cbn [fst snd].
    split; [|split; [discriminate|]].
    + split.
      * intros H. split; [reflexivity|].
        destruct (data_write key value ttl w1).1 as [r|e1];
          destruct (releaseLock self key (data_write key value ttl w1).2).1
            as [b|e2]; cbn in H; try discriminate; eauto.
      * intros (_ & [r Hr] & [b Hb]). by rewrite Hr, Hb.
    + intros _. split.
      * rewrite releaseLock_sent, data_write_sent, <- (assoc_L (++)). reflexivity.
      * intros b Hb. by apply (releaseLock_held self key _ b (Hheld eq_refl)).
  - split; [split; [discriminate|intros [? _]; discriminate]|].
    split; [|discriminate].
    intros _. split; [reflexivity|]. split; [exact Hsent|].
    apply Hkeys. discriminate.
  - split; [split; [discriminate|intros [? _]; discriminate]|].
    split; discriminate.
Qed.

Lemma safeSet_outcome_witness :
  (safeSet alice "k" "v" (seconds 3600) empty_world).1 = Returned true
  /\ keys (safeSet alice "k" "v" (seconds 3600) empty_world).2 !! lockKey "k" = None
  /\ (safeSet bob "r" "v" star alice_holds_r).1 = Returned false
  /\ keys (safeSet bob "r" "v" star alice_holds_r).2 = keys alice_holds_r
  /\ sent (safeSet alice "k" "v" star write_fails).2
     = [CmdSet "lock:k" (clientId alice) (lock_options alice);
        CmdSet "k" "v" no_options;
        CmdScript releaseLockScript ["lock:k"; clientId alice]
          (primarySlotKey "lock:k")].
Proof.
  destruct (safeSet_outcome alice "k" "v" (seconds 3600) empty_world)
    as (Htrue & _ & Hacq).
  destruct (safeSet_outcome bob "r" "v" star alice_holds_r)
    as (_ & Hden & _).
  destruct (safeSet_outcome alice "k" "v" star write_fails)
    as (_ & _ & Hfail).
  cbv zeta in *.
  split.
  { apply Htrue. split; [reflexivity|]. split; eexists; reflexivity. }
  split; [exact (proj2 (proj2 (Hacq eq_refl) true eq_refl))|].
  destruct (Hden eq_refl) as (Hf & _ & Hk).
  split; [exact Hf|]. split; [exact Hk|].
  exact (proj1 (Hfail eq_refl)).
Defined.

(** ** Failures of the guarded operation and of the release *)

(** C6, as the claim states it, fails on both guarded paths: the write
    of [safeSet] is refused and the release is then lost, and the caller
    observes the release's error, not the write's; likewise for an
    operation that throws inside [withLock]. *)
Lemma release_failure_replaces_original :
  let a := acquireLock alice "k" write_and_release_fail in
  let wr := data_write "k" "v" star a.2 in
  a.1 = Returned true
  /\ wr.1 = Raised (RequestError "write refused")
  /\ (releaseLock alice "k" wr.2).1 = Raised (RequestError "connection lost")
  /\ (safeSet alice "k" "v" star write_and_release_fail).1
     = Raised (RequestError "connection lost")
  /\ (safeSet alice "k" "v" star write_and_release_fail).1
     <> Raised (RequestError "write refused")
  /\ (withLock bob "job" fn_boom second_command_lost).1
     = Raised (RequestError "connection lost")
  /\ (withLock bob "job" fn_boom second_command_lost).1
     <> Raised (Thrown (VStr "boom")).
Proof. vm_compute. repeat split; discriminate. Qed.

(** C6, amended.  When the guarded operation (the operation given to
    [withLock], or the write of [safeSet]) fails after the lock was
    acquired, the release command is sent before anything propagates.
    If the release call completes, the caller observes the guarded
    operation's failure; if the release call itself fails, the caller
    observes the release's failure in its place. *)
Theorem release_attempted_then_propagate
  (self : DistributedLock) (fn : M value)
  (key value : string) (ttl : ttl_arg) (w : World) :
  let a := acquireLock self key w in
  a.1 = Returned true ->
  (forall e, (fn a.2).1 = Raised e ->
     let rel := releaseLock self key (fn a.2).2 in
     let out := withLock self key fn w in
     sent out.2 = sent (fn a.2).2 ++ [release_command self key]
     /\ (forall b, rel.1 = Returned b -> out.1 = Raised e)
     /\ (forall e', rel.1 = Raised e' -> out.1 = Raised e'))
  /\ (forall e, (data_write key value ttl a.2).1 = Raised e ->
     let rel := releaseLock self key (data_write key value ttl a.2).2 in
     let out := safeSet self key value ttl w in
     sent out.2 = sent (data_write key value ttl a.2).2 ++ [release_command self key]
     /\ (forall b, rel.1 = Returned b -> out.1 = Raised e)
     /\ (forall e', rel.1 = Raised e' -> out.1 = Raised e')).
Proof.
  cbv zeta. intros Ha. rewrite withLock_eq, safeSet_eq.
  destruct (acquireLock self key w) as [[[|]|e0] w1]; cbn [fst snd] in *;
    try discriminate.
  cbv zeta. cbn [fst snd]. split; intros e He; rewrite He.
  - split; [apply releaseLock_sent|].
    split; [intros b Hr|intros e' Hr]; by rewrite Hr.
  - split; [apply releaseLock_sent|].
    split; [intros b Hr|intros e' Hr]; by rewrite Hr.
Qed.

Lemma release_attempted_then_propagate_witness :
  (acquireLock alice "k" write_fails).1 = Returned true
  /\ (withLock alice "k" fn_boom empty_world).1 = Raised (Thrown (VStr "boom"))
  /\ (safeSet alice "k" "v" star write_fails).1
     = Raised (RequestError "write refused")
  /\ (safeSet alice "k" "v" star write_and_release_fail).1
     = Raised (RequestError "connection lost").
Proof.
  destruct (release_attempted_then_propagate alice fn_boom "k" "v" star
              empty_world eq_refl) as [Hwith _].
  destruct (release_attempted_then_propagate alice fn_boom "k" "v" star
              write_fails eq_refl) as [_ Hset].
  destruct (release_attempted_then_propagate alice fn_boom "k" "v" star
              write_and_release_fail eq_refl) as [_ Hset'].
  cbv zeta in *.
  split; [reflexivity|].
  split; [exact (proj1 (proj2 (Hwith _ eq_refl)) true eq_refl)|].
  split; [exact (proj1 (proj2 (Hset _ eq_refl)) true eq_refl)|].
  exact (proj2 (proj2 (Hset' _ eq_refl)) _ eq_refl).
Defined.

(** ** What the results tell the caller *)

(** C9. Take a world in which the lock is free and an operation that
    resolves to [null], and a world in which the lock is denied.
    [withLock] returns [null] in both: in the first the lock was
    acquired, the operation ran and the release command was sent (and,
    if the operation left the marker alone, the lock key is gone), in
    the second the operation never ran.  The two results are equal, so
    [null] does not tell a denial from a run. *)
Theorem withLock_null_is_ambiguous
  (self : DistributedLock) (key : string) (fn : M value)
  (w_free w_held : World) :
  let a := acquireLock self key w_free in
  let f := fn a.2 in
  let rel := releaseLock self key f.2 in
  a.1 = Returned true ->
  f.1 = Returned VNull ->
  (exists b, rel.1 = Returned b) ->
  (acquireLock self key w_held).1 = Returned false ->
  (withLock self key fn w_free).1 = Returned VNull
  /\ sent (withLock self key fn w_free).2
     = sent f.2 ++ [CmdScript releaseLockScript [lockKey key; clientId self]
                      (primarySlotKey (lockKey key))]
  /\ (stored <$> keys f.2 !! lockKey key = Some (clientId self) ->
      keys (withLock self key fn w_free).2 !! lockKey key = None)
  /\ (withLock self key fn w_held).1 = Returned VNull
  /\ (withLock self key fn w_held).2 = (acquireLock self key w_held).2
  /\ (withLock self key fn w_free).1 = (withLock self key fn w_held).1.
Proof.
  cbv zeta. intros Ha Hf [b Hb] Hheld.
  rewrite !withLock_eq.
  destruct (acquireLock self key w_free) as [[[|]|e0] w1]; cbn [fst snd] in *;
    try discriminate.
  destruct (acquireLock self key w_held) as [[[|]|e1] w2]; cbn [fst snd] in *;
    try discriminate.
  rewrite Hf, Hb. cbn [after_cleanup].
  split; [reflexivity|]. split; [apply releaseLock_sent|].
  split; [|done].
  intros Hown. by apply (releaseLock_held self key _ b Hown).
Qed.

Lemma withLock_null_is_ambiguous_witness :
  (withLock bob "r" fn_null empty_world).1 = Returned VNull
  /\ keys (withLock bob "r" fn_null empty_world).2 !! lockKey "r" = None
  /\ (withLock bob "r" fn_null alice_holds_r).1 = Returned VNull
  /\ (withLock bob "r" fn_null empty_world).1
     = (withLock bob "r" fn_null alice_holds_r).1.
Proof.
  destruct (withLock_null_is_ambiguous bob "r" fn_null empty_world alice_holds_r
              eq_refl eq_refl (ex_intro _ true eq_refl) eq_refl)
    as (Hfree & _ & Hgone & Hheld & _ & Hsame).
  split; [exact Hfree|]. split; [exact (Hgone eq_refl)|].
  split; [exact Hheld|exact Hsame].
Defined.

(** C10. [safeSet] returns [false] exactly when the acquisition was
    denied, that is, when the lock key was already there.  A write that
    fails after a successful acquisition never gives [false]: the
    release command is sent and [safeSet] raises, the write's failure
    whenever the release call completes. *)
Theorem safeSet_false_means_denied
  (self : DistributedLock) (key value : string) (ttl : ttl_arg) (w : World) :
  let a := acquireLock self key w in
  let wr := data_write key value ttl a.2 in
  let rel := releaseLock self key wr.2 in
  let out := safeSet self key value ttl w in
  (out.1 = Returned false <-> a.1 = Returned false)
  /\ (out.1 = Returned false -> is_Some (keys w !! lockKey key))
  /\ (a.1 = Returned true ->
      forall e, wr.1 = Raised e ->
      out.1 <> Returned false
      /\ (exists e', out.1 = Raised e')
      /\ sent out.2
         = sent wr.2 ++ [CmdScript releaseLockScript [lockKey key; clientId self]
                           (primarySlotKey (lockKey key))]
      /\ (forall b, rel.1 = Returned b -> out.1 = Raised e)).
Proof.
  cbv zeta. rewrite safeSet_eq.
  pose proof (acquireLock_false self key w) as Hd.
  destruct (acquireLock self key w) as [[[|]|e0] w1]; cbn [fst snd] in *.
  - cbv zeta. cbn [fst snd].
    assert (Hnf : after_cleanup
              match (data_write key value ttl w1).1 with
              | Returned _ => Returned true
              | Raised e => Raised e
              end (releaseLock self key (data_write key value ttl w1).2).1
            <> Returned false).
    { destruct (data_write key value ttl w1).1;
        destruct (releaseLock self key (data_write key value ttl w1).2).1;
        discriminate. }
    split; [split; [intros H; by destruct Hnf|discriminate]|].
    split; [intros H; by destruct Hnf|].
    intros _ e He. split; [exact Hnf|]. rewrite He.
    split.
    { destruct (releaseLock self key (data_write key value ttl w1).2).1; eauto. }
    split; [apply releaseLock_sent|].
    intros b Hb. by rewrite Hb.
  - split; [done|]. split; [|discriminate].
    intros _. exact (proj1 (Hd eq_refl)).
  - split; [split; discriminate|]. split; discriminate.
Qed.

Lemma safeSet_false_means_denied_witness :
  (safeSet bob "r" "v" star alice_holds_r).1 = Returned false
  /\ is_Some (keys alice_holds_r !! lockKey "r")
  /\ (safeSet alice "k" "v" star write_fails).1
     = Raised (RequestError "write refused")
  /\ (safeSet alice "k" "v" star write_fails).1 <> Returned false.
Proof.
  destruct (safeSet_false_means_denied bob "r" "v" star alice_holds_r)
    as (Hiff & Hsome & _).
  destruct (safeSet_false_means_denied alice "k" "v" star write_fails)
    as (_ & _ & Hfail).
  cbv zeta in *.
  pose proof (proj2 Hiff eq_refl) as Hfalse.
  destruct (Hfail eq_refl _ eq_refl) as (Hnf & _ & _ & Hsame).
  split; [exact Hfalse|]. split; [exact (Hsome Hfalse)|].
  split; [exact (Hsame true eq_refl)|exact Hnf].
Defined.

(** ** Lock keys and markers *)




(** ** Construction *)

Lemma toString_hex_length buf :
  String.length (toString_hex buf) = (2 * length buf)%nat.
Proof. induction buf as [|b buf IH]; cbn [toString_hex String.length length]; lia. Qed.

(** Sixteen bytes of entropy give an identity of 32 characters. *)
Lemma generateClientId_length (randomBytes : nat -> list Byte.byte) :
  length (randomBytes 16%nat) = 16%nat ->
  String.length (generateClientId randomBytes) = 32%nat.
Proof. intros H. unfold generateClientId. rewrite toString_hex_length, H. reflexivity. Qed.

(** C7, as the claim states it, fails: constructing a manager with a TTL
    of 0 or of -5 seconds raises nothing and produces an instance that
    carries that TTL. *)
Lemma constructor_accepts_non_positive_ttl :
  0 <= 0
  /\ constructor rnd0 (Some 0)
     = Returned {| clientId := "abababababababababababababababab";
                   lockTtlSeconds := 0 |}
  /\ -5 <= 0
  /\ constructor rnd1 (Some (-5))
     = Returned {| clientId := "07070707070707070707070707070707";
                   lockTtlSeconds := -5 |}.
Proof. repeat split; discriminate. Qed.

(** C7, amended.  The constructor checks nothing and never fails: for
    every TTL argument, positive or not, it produces an instance whose
    identity is the hex rendering of 16 bytes of entropy and whose TTL
    is the argument (10 when omitted); that TTL is then sent unchanged
    as the expiry count of each acquisition. *)
Theorem constructor_never_fails
  (randomBytes : nat -> list Byte.byte) (ttl : option Z) :
  exists self,
    constructor randomBytes ttl = Returned self
    /\ getClientId self = toString_hex (randomBytes 16%nat)
    /\ lockTtlSeconds self = match ttl with Some n => n | None => 10 end
    /\ (forall key w,
          sent (acquireLock self key w).2
          = sent w ++ [CmdSet (lockKey key) (clientId self)
                         {| expiry := Some {| type := Seconds;
                                              count := match ttl with
                                                       | Some n => n
                                                       | None => 10
                                                       end |};
                            conditionalSet := Some onlyIfDoesNotExist |}]).
Proof.
  eexists. split; [reflexivity|]. split; [reflexivity|].
  split; [by destruct ttl|].
  intros key w. rewrite acquireLock_sent. by destruct ttl.
Qed.

(** * Further properties of the module *)

(** ** The identity of an instance *)

Lemma hex_byte_round_trip (b : Byte.byte) :
  unhex_byte (hex_digit (Byte.to_N b / 16)) (hex_digit (Byte.to_N b mod 16))
  = Some b.
Proof. destruct b; vm_compute; reflexivity. Qed.

Lemma hex_byte_lower (b : Byte.byte) :
  lower_hex (hex_digit (Byte.to_N b / 16)) = true
  /\ lower_hex (hex_digit (Byte.to_N b mod 16)) = true.
Proof. destruct b; vm_compute; auto. Qed.

Lemma fromHex_toString_hex (buf : list Byte.byte) :
  fromHex (toString_hex buf) = Some buf.
Proof.
  induction buf as [|b buf IH]; [reflexivity|].
  cbn [toString_hex fromHex]. cbv zeta.
  by rewrite hex_byte_round_trip, IH.
Qed.

Lemma toString_hex_lower (buf : list Byte.byte) :
  Forall (fun c => lower_hex c = true) (list_ascii_of_string (toString_hex buf)).
Proof.
  induction buf as [|b buf IH]; [constructor|].
  cbn [toString_hex list_ascii_of_string]. cbv zeta.
  destruct (hex_byte_lower b) as [Hhi Hlo].
  constructor; [exact Hhi|]. constructor; [exact Hlo|exact IH].
Qed.

(** X1. The identity [generateClientId] makes from a buffer of 16 bytes
    is a string of 32 characters, each one of [0-9a-f]. *)
Theorem generateClientId_format (randomBytes : nat -> list Byte.byte) :
  length (randomBytes 16%nat) = 16%nat ->
  String.length (generateClientId randomBytes) = 32%nat
  /\ Forall (fun c => lower_hex c = true)
       (list_ascii_of_string (generateClientId randomBytes)).
Proof.
  intros H. split; [by apply generateClientId_length|].
  apply toString_hex_lower.
Qed.

Lemma generateClientId_format_witness :
  String.length (generateClientId rnd0) = 32%nat
  /\ Forall (fun c => lower_hex c = true)
       (list_ascii_of_string (generateClientId rnd0)).
Proof. exact (generateClientId_format rnd0 eq_refl). Defined.

(** X2. The hex rendering loses nothing: two entropy buffers that give
    the same identity are the same buffer, so two instances share an
    identity only if their entropy source handed out the same bytes;
    whenever the buffers differ, so do the identities of the two
    constructed instances. *)
Theorem generateClientId_injective (r1 r2 : nat -> list Byte.byte) :
  (generateClientId r1 = generateClientId r2 -> r1 16%nat = r2 16%nat)
  /\ (forall ttl1 ttl2 m1 m2,
        r1 16%nat <> r2 16%nat ->
        constructor r1 ttl1 = Returned m1 ->
        constructor r2 ttl2 = Returned m2 ->
        getClientId m1 <> getClientId m2).
Proof.
  assert (Hinj : generateClientId r1 = generateClientId r2 ->
                 r1 16%nat = r2 16%nat).
  { unfold generateClientId. intros H.
    apply (f_equal fromHex) in H. rewrite !fromHex_toString_hex in H.
    congruence. }
  split; [exact Hinj|].
  intros ttl1 ttl2 m1 m2 Hne [= <-] [= <-]. cbn. intros H. by apply Hne, Hinj.
Qed.

Lemma generateClientId_injective_witness :
  getClientId alice <> getClientId bob.
Proof.
  refine (proj2 (generateClientId_injective rnd0 rnd1)
            (Some 10) (Some 5) alice bob _ eq_refl eq_refl).
  discriminate.
Defined.

(** ** One manager, one call after the other *)

Lemma reliable_with_keys ks w : reliable w -> reliable (with_keys ks w).
Proof. done. Qed.

Lemma reliable_acquireLock self key w :
  reliable w -> reliable (acquireLock self key w).2.
Proof.
  intros Hr. destruct (acquireLock_cases self key w) as [[e He]|[Hd Hpos]].
  - rewrite He. by apply reliable_posted.
  - rewrite (acquireLock_delivered _ _ _ Hpos Hd).
    destruct (keys w !! lockKey key); cbn [snd];
      [|apply reliable_with_keys]; by apply reliable_posted.
Qed.

Lemma reliable_releaseLock self key w :
  reliable w -> reliable (releaseLock self key w).2.
Proof.
  intros Hr. rewrite (releaseLock_delivered _ _ _ (reliable_delivers _ Hr)).
  destruct (decide (held_by self key w)); cbn [snd];
    [apply reliable_with_keys|]; by apply reliable_posted.
Qed.

Lemma data_write_delivered key value ttl w :
  valid_ttl ttl ->
  delivers w ->
  data_write key value ttl w =
    (Returned (Some "OK"),
     with_keys (<[key := data_entry value ttl]> (keys w))
       (posted (CmdSet key value (write_options ttl)) w)).
Proof.
  intros Hv Hd. unfold data_write. rewrite (client_set_delivered _ _ _ _ Hd).
  unfold do_set, valid_expiry, data_entry. destruct ttl as [|n]; [reflexivity|].
  cbn in *. by rewrite (proj2 (Z.ltb_lt _ _) Hv).
Qed.

Lemma reliable_data_write key value ttl w :
  reliable w -> reliable (data_write key value ttl w).2.
Proof.
  intros Hr.
  destruct (data_write_cases key value ttl w) as [[e He]|(_ & _ & He)];
    rewrite He; cbn [snd]; [|apply reliable_with_keys]; by apply reliable_posted.
Qed.

(** X3. On a delivering transport, for a manager with a positive TTL,
    acquiring a free lock and releasing it right away both return [true]
    and leave the key space exactly as it was before the acquisition. *)
Theorem acquire_release_round_trip
  (self : DistributedLock) (key : string) (w : World) :
  0 < lockTtlSeconds self ->
  reliable w ->
  keys w !! lockKey key = None ->
  let a := acquireLock self key w in
  let r := releaseLock self key a.2 in
  a.1 = Returned true
  /\ r.1 = Returned true
  /\ keys r.2 = keys w
  /\ sent r.2 = sent w ++ [acquire_command self key; release_command self key].
Proof.
  intros Hpos Hr Hk. cbv zeta.
  pose proof (reliable_acquireLock self key w Hr) as Hr1.
  rewrite (releaseLock_delivered _ _ _ (reliable_delivers _ Hr1)).
  rewrite (acquireLock_delivered _ _ _ Hpos (reliable_delivers _ Hr)), Hk.
  cbn [fst snd]. rewrite decide_True.
  - cbn [fst snd keys sent with_keys posted].
    split; [done|]. split; [done|]. split; [by apply delete_insert_id|].
    by rewrite <- (assoc_L (++)).
  - unfold held_by. cbn [keys with_keys]. by rewrite lookup_insert_eq.
Qed.

Lemma acquire_release_round_trip_witness :
  (releaseLock carol "job" (acquireLock carol "job" alice_holds_r).2).1
  = Returned true
  /\ keys (releaseLock carol "job" (acquireLock carol "job" alice_holds_r).2).2
     = keys alice_holds_r.
Proof.
  destruct (acquire_release_round_trip carol "job" alice_holds_r
              eq_refl ltac:(constructor) eq_refl) as (_ & Hr & Hk & _).
  split; [exact Hr|exact Hk].
Defined.

(** X4. No method touches a key it was not called for: [acquireLock]
    and [releaseLock] change nothing but the lock key of the name,
    [safeSet] nothing but the data key and its lock key, and what
    [withLock] adds to the effects of its operation is confined to the
    lock key; this holds whatever the transport does. *)
Theorem methods_frame
  (self : DistributedLock) (fn : M value)
  (key value : string) (ttl : ttl_arg) (w : World) (k : string) :
  k <> lockKey key ->
  keys (acquireLock self key w).2 !! k = keys w !! k
  /\ keys (releaseLock self key w).2 !! k = keys w !! k
  /\ (k <> key -> keys (safeSet self key value ttl w).2 !! k = keys w !! k)
  /\ ((acquireLock self key w).1 = Returned true ->
      keys (withLock self key fn w).2 !! k
      = keys (fn (acquireLock self key w).2).2 !! k)
  /\ ((acquireLock self key w).1 <> Returned true ->
      keys (withLock self key fn w).2 !! k = keys w !! k).
Proof.
  intros Hk.
  assert (Hacq : forall w0, keys (acquireLock self key w0).2 !! k = keys w0 !! k).
  { intros w0. destruct (acquireLock_cases self key w0) as [[e He]|[Hd Hpos]].
    - by rewrite He.
    - rewrite (acquireLock_delivered _ _ _ Hpos Hd).
      destruct (keys w0 !! lockKey key); [done|].
      cbn [snd keys with_keys]. by rewrite lookup_insert_ne. }
  assert (Hrel : forall w0, keys (releaseLock self key w0).2 !! k = keys w0 !! k).
  { intros w0. destruct (delivers_cases w0) as [Hd|(e & fs & Hf)].
    - rewrite (releaseLock_delivered _ _ _ Hd).
      destruct (decide (held_by self key w0)); [|done].
      cbn [snd keys with_keys]. by rewrite lookup_delete_ne.
    - by rewrite (releaseLock_failed _ _ _ _ _ Hf). }
  split; [apply Hacq|]. split; [apply Hrel|]. split; [|split].
  - intros Hk'. rewrite safeSet_eq. specialize (Hacq w).
    destruct (acquireLock self key w) as [[[|]|e] w1]; cbn [fst snd] in *;
      try exact Hacq.
    cbv zeta. cbn [snd]. by rewrite Hrel, data_write_other.
  - intros Ha. rewrite withLock_eq.
    destruct (acquireLock self key w) as [[[|]|e] w1]; cbn [fst snd] in *;
      try discriminate.
    apply Hrel.
  - intros Ha. rewrite withLock_eq. specialize (Hacq w).
    destruct (acquireLock self key w) as [[[|]|e] w1]; cbn [fst snd] in *;
      [by destruct Ha|exact Hacq|exact Hacq].
Qed.

Lemma methods_frame_witness :
  keys (safeSet bob "k" "v" star alice_holds_r).2 !! "lock:r"
  = Some (marker alice).
Proof.
  destruct (methods_frame bob fn_done "k" "v" star alice_holds_r "lock:r"
              ltac:(discriminate)) as (_ & _ & Hset & _).
  rewrite (Hset ltac:(discriminate)). reflexivity.
Defined.

Lemma safeSet_on_free_lock
  (self : DistributedLock) (key value : string) (ttl : ttl_arg) (w : World) :
  0 < lockTtlSeconds self ->
  valid_ttl ttl ->
  reliable w ->
  keys w !! lockKey key = None ->
  let out := safeSet self key value ttl w in
  out.1 = Returned true
  /\ keys out.2
     = <[key := {| stored := value;
                   expires := match ttl with
                              | star => None
                              | seconds n => Some {| type := Seconds; count := n |}
                              end |}]> (keys w)
  /\ keys out.2 !! lockKey key = None
  /\ sent out.2
     = sent w ++ [acquire_command self key;
                  CmdSet key value (write_options ttl);
                  release_command self key]
  /\ reliable out.2.
Proof.
  intros Hpos Hv Hr Hk. cbv zeta. rewrite safeSet_eq.
  pose proof (reliable_acquireLock self key w Hr) as Hr1.
  pose proof (held_after_write self key value ttl w) as Hheld.
  rewrite (acquireLock_delivered _ _ _ Hpos (reliable_delivers _ Hr)), Hk in *.
  cbn [fst snd] in *. cbv zeta. specialize (Hheld eq_refl).
  pose proof (reliable_data_write key value ttl _ Hr1) as Hr2.
  pose proof (reliable_releaseLock self key _ Hr2) as Hr3.
  rewrite (releaseLock_delivered _ _ _ (reliable_delivers _ Hr2)) in *.
  rewrite decide_True in * by exact Hheld.
  rewrite (data_write_delivered _ _ _ _ Hv (reliable_delivers _ Hr1)) in *.
  cbn [fst snd keys sent with_keys posted after_cleanup] in *.
  fold (data_entry value ttl).
  assert (Hkeys : delete (lockKey key)
                    (<[key := data_entry value ttl]>
                       (<[lockKey key := marker self]> (keys w)))
                  = <[key := data_entry value ttl]> (keys w)).
  { rewrite delete_insert_ne by apply lockKey_neq.
    by rewrite delete_insert_id. }
  split; [done|]. split; [exact Hkeys|]. split.
  - rewrite Hkeys, lookup_insert_ne by (intros H; by apply (lockKey_neq key)).
    exact Hk.
  - split; [by rewrite <- !(assoc_L (++))|exact Hr3].
Qed.


(** X5. On a delivering transport, for a manager with a positive TTL
    and a [ttl] argument that is ["*"] or a positive number, [safeSet]
    on a name whose lock is free returns [true] after exactly three
    commands, and the key space it leaves is the previous one with the
    data key set to the value: without expiry for ["*"] (an expiry the
    key had before is gone), with an expiry of [n] seconds for a number
    [n]; no marker is left. *)
Theorem safeSet_success_state
  (self : DistributedLock) (key value : string) (ttl : ttl_arg) (w : World) :
  0 < lockTtlSeconds self ->
  valid_ttl ttl ->
  reliable w ->
  keys w !! lockKey key = None ->
  let out := safeSet self key value ttl w in
  out.1 = Returned true
  /\ keys out.2
     = <[key := {| stored := value;
                   expires := match ttl with
                              | star => None
                              | seconds n => Some {| type := Seconds; count := n |}
                              end |}]> (keys w)
  /\ keys out.2 !! lockKey key = None
  /\ sent out.2
     = sent w ++ [acquire_command self key;
                  CmdSet key value (write_options ttl);
                  release_command self key]
  /\ reliable out.2.
Proof. apply safeSet_on_free_lock. Qed.

Lemma safeSet_success_state_witness :
  (safeSet bob "k" "v" (seconds 60) alice_holds_r).1 = Returned true
  /\ keys (safeSet bob "k" "v" (seconds 60) alice_holds_r).2
     = <["k" := {| stored := "v";
                   expires := Some {| type := Seconds; count := 60 |} |}]>
         (keys alice_holds_r).
Proof.
  destruct (safeSet_success_state bob "k" "v" (seconds 60) alice_holds_r
              eq_refl eq_refl ltac:(constructor) eq_refl) as (Hr & Hk & _).
  split; [exact Hr|exact Hk].
Defined.

Lemma lockKey_inj k1 k2 : lockKey k1 = lockKey k2 -> k1 = k2.
Proof. unfold lockKey. simpl. intros H. by simplify_eq. Qed.

(** *** What an acquisition or a release depends on *)

Lemma acquireLock_frame self key w k :
  k <> lockKey key -> keys (acquireLock self key w).2 !! k = keys w !! k.
Proof.
  intros Hk. destruct (acquireLock_cases self key w) as [[e He]|[Hd Hpos]].
  - by rewrite He.
  - rewrite (acquireLock_delivered _ _ _ Hpos Hd).
    destruct (keys w !! lockKey key); [done|].
    cbn [snd keys with_keys]. by rewrite lookup_insert_ne.
Qed.

Lemma acquireLock_keys_delivered self key w :
  delivers w ->
  keys (acquireLock self key w).2
  = if decide (0 < lockTtlSeconds self)
    then match keys w !! lockKey key with
         | None => <[lockKey key := marker self]> (keys w)
         | Some _ => keys w
         end
    else keys w.
Proof.
  intros Hd. destruct (decide (0 < lockTtlSeconds self)) as [Hpos|Hneg].
  - rewrite (acquireLock_delivered _ _ _ Hpos Hd).
    by destruct (keys w !! lockKey key).
  - by rewrite (acquireLock_refused _ _ _ Hneg Hd).
Qed.

Lemma acquireLock_depends self key w w' :
  delivers w -> delivers w' ->
  keys w !! lockKey key = keys w' !! lockKey key ->
  (acquireLock self key w).1 = (acquireLock self key w').1.
Proof.
  intros Hd Hd' Hk. destruct (decide (0 < lockTtlSeconds self)) as [Hpos|Hneg].
  - rewrite !acquireLock_delivered by done. rewrite Hk.
    by destruct (keys w' !! lockKey key).
  - by rewrite !acquireLock_refused.
Qed.

Lemma releaseLock_depends self key w w' :
  delivers w -> delivers w' ->
  keys w !! lockKey key = keys w' !! lockKey key ->
  (releaseLock self key w).1 = (releaseLock self key w').1.
Proof.
  intros Hd Hd' Hk. rewrite !releaseLock_delivered by done.
  assert (Hiff : held_by self key w <-> held_by self key w')
    by (unfold held_by; by rewrite Hk).
  destruct (decide (held_by self key w)) as [H|H];
    destruct (decide (held_by self key w')) as [H'|H']; try done;
    exfalso; tauto.
Qed.

(** X6. Locks on different names do not interfere: on a delivering
    transport, whether a lock on [key2] can be acquired or released does
    not depend on an acquisition on [key1] made just before, and two
    acquisitions on different names leave the same key space in either
    order. *)
Theorem locks_on_different_names_independent
  (m1 m2 : DistributedLock) (key1 key2 : string) (w : World) :
  key1 <> key2 ->
  reliable w ->
  let a1 := acquireLock m1 key1 w in
  (acquireLock m2 key2 a1.2).1 = (acquireLock m2 key2 w).1
  /\ (releaseLock m2 key2 a1.2).1 = (releaseLock m2 key2 w).1
  /\ keys (acquireLock m2 key2 a1.2).2
     = keys (acquireLock m1 key1 (acquireLock m2 key2 w).2).2.
Proof.
  intros Hne Hr. cbv zeta.
  assert (Hk : lockKey key1 <> lockKey key2) by (intros H; by apply Hne, lockKey_inj).
  pose proof (reliable_delivers _ Hr) as Hd.
  pose proof (reliable_delivers _ (reliable_acquireLock m1 key1 w Hr)) as Hd1.
  pose proof (reliable_delivers _ (reliable_acquireLock m2 key2 w Hr)) as Hd2.
  pose proof (acquireLock_frame m1 key1 w (lockKey key2) ltac:(done)) as Hf.
  split; [by apply acquireLock_depends|].
  split; [by apply releaseLock_depends|].
  rewrite (acquireLock_keys_delivered m2 key2 _ Hd1).
  rewrite (acquireLock_keys_delivered m1 key1 _ Hd2).
  pose proof (acquireLock_keys_delivered m1 key1 w Hd) as E1.
  pose proof (acquireLock_keys_delivered m2 key2 w Hd) as E2.
  rewrite Hf.
  pose proof (acquireLock_frame m2 key2 w (lockKey key1) ltac:(done)) as Hf'.
  rewrite Hf'. rewrite E1, E2.
  destruct (decide (0 < lockTtlSeconds m1));
    destruct (decide (0 < lockTtlSeconds m2));
    destruct (keys w !! lockKey key1) as [e1|] eqn:H1;
    destruct (keys w !! lockKey key2) as [e2|] eqn:H2; try done.
  by apply insert_insert_ne.
Qed.

Lemma locks_on_different_names_independent_witness :
  (acquireLock bob "job" (acquireLock alice "r" empty_world).2).1 = Returned true
  /\ (acquireLock bob "r" (acquireLock alice "r" empty_world).2).1 = Returned false.
Proof.
  destruct (locks_on_different_names_independent alice bob "r" "job" empty_world
              ltac:(discriminate) ltac:(constructor)) as (Ha & _ & _).
  split; [rewrite Ha; reflexivity|reflexivity].
Defined.



(** *** [withLock] around other calls *)

Lemma withLock_denied self key fn w :
  0 < lockTtlSeconds self ->
  delivers w ->
  is_Some (keys w !! lockKey key) ->
  withLock self key fn w = (Returned VNull, posted (acquire_command self key) w).
Proof.
  intros Hpos Hd [e He].
  rewrite withLock_eq, (acquireLock_delivered _ _ _ Hpos Hd), He.
  reflexivity.
Qed.

Lemma safeSet_denied self key value ttl w :
  0 < lockTtlSeconds self ->
  delivers w ->
  is_Some (keys w !! lockKey key) ->
  safeSet self key value ttl w
  = (Returned false, posted (acquire_command self key) w).
Proof.
  intros Hpos Hd [e He].
  rewrite safeSet_eq, (acquireLock_delivered _ _ _ Hpos Hd), He.
  reflexivity.
Qed.

(** X8. The lock is not re-entrant, for its holder as for anybody else.
    On a delivering transport, for managers with a positive TTL, with
    the lock on [key] free: a [withLock]
    nested in a [withLock] on the same name never runs its operation and
    yields [null], and a [safeSet] on that name inside the [withLock]
    returns [false] without writing; in both cases the outer call hands
    the inner result on and leaves the key space as it found it. *)
Theorem withLock_not_reentrant
  (outer inner : DistributedLock) (fn fn' : M value)
  (key value : string) (ttl : ttl_arg) (w : World) :
  0 < lockTtlSeconds outer ->
  0 < lockTtlSeconds inner ->
  reliable w ->
  keys w !! lockKey key = None ->
  let nested := withLock outer key (withLock inner key fn) w in
  let guarded := withLock outer key (as_value (safeSet inner key value ttl)) w in
  nested.1 = Returned VNull
  /\ keys nested.2 = keys w
  /\ withLock outer key (withLock inner key fn') w = nested
  /\ guarded.1 = Returned (VBool false)
  /\ keys guarded.2 = keys w.
Proof.
  intros Hpo Hpi Hr Hk. cbv zeta.
  pose proof (reliable_acquireLock outer key w Hr) as Hr1.
  rewrite !(withLock_eq outer).
  rewrite (acquireLock_delivered _ _ _ Hpo (reliable_delivers _ Hr)), Hk in *.
  cbn [fst snd] in *.
  set (w1 := with_keys (<[lockKey key:=marker outer]> (keys w))
               (posted (acquire_command outer key) w)) in *.
  assert (Hheld : is_Some (keys w1 !! lockKey key)).
  { subst w1. cbn [keys with_keys]. rewrite lookup_insert_eq. by eexists. }
  assert (Hown : held_by outer key (posted (acquire_command inner key) w1)).
  { unfold held_by. subst w1. cbn [keys with_keys posted].
    by rewrite lookup_insert_eq. }
  assert (Hr2 : reliable (posted (acquire_command inner key) w1))
    by (by apply reliable_posted).
  assert (Hrel : releaseLock outer key (posted (acquire_command inner key) w1)
           = (Returned true,
              with_keys (delete (lockKey key)
                           (keys (posted (acquire_command inner key) w1)))
                (posted (release_command outer key)
                   (posted (acquire_command inner key) w1)))).
  { rewrite (releaseLock_delivered _ _ _ (reliable_delivers _ Hr2)).
    by rewrite decide_True. }
  rewrite !(withLock_denied inner key _ w1 Hpi (reliable_delivers _ Hr1) Hheld).
  unfold as_value.
  rewrite (safeSet_denied inner key value ttl w1 Hpi
             (reliable_delivers _ Hr1) Hheld).
  cbn [fst snd]. rewrite Hrel. cbn [fst snd after_cleanup keys with_keys posted].
  subst w1. cbn [keys with_keys].
  rewrite (delete_insert_id _ _ _ Hk). done.
Qed.

Lemma withLock_not_reentrant_witness :
  (withLock alice "r" (withLock alice "r" fn_done) empty_world).1
  = Returned VNull
  /\ (withLock alice "r" (as_value (safeSet alice "r" "v" star)) empty_world).1
     = Returned (VBool false)
  /\ keys (withLock alice "r" (as_value (safeSet alice "r" "v" star))
             empty_world).2 !! "r" = None.
Proof.
  destruct (withLock_not_reentrant alice alice fn_done fn_boom "r" "v" star
              empty_world eq_refl eq_refl ltac:(constructor) eq_refl)
    as (Hn & _ & _ & Hg & Hk).
  split; [exact Hn|]. split; [exact Hg|]. rewrite Hk. reflexivity.
Defined.

(** X9. [withLock] leaves no marker behind: if the lock was acquired,
    the operation left the marker in place and the release command is
    delivered, then the caller gets exactly what the operation returned
    or threw, and the key space is the one the operation left, minus
    the lock key. *)
Theorem withLock_no_leak
  (self : DistributedLock) (key : string) (fn : M value) (w : World) :
  let a := acquireLock self key w in
  let f := fn a.2 in
  let out := withLock self key fn w in
  a.1 = Returned true ->
  stored <$> keys f.2 !! lockKey key = Some (clientId self) ->
  delivers f.2 ->
  out.1 = f.1
  /\ keys out.2 = delete (lockKey key) (keys f.2)
  /\ keys out.2 !! lockKey key = None.
Proof.
  cbv zeta. intros Ha Hheld Hd. rewrite withLock_eq.
  destruct (acquireLock self key w) as [[[|]|e] w1]; cbn [fst snd] in *;
    try discriminate.
  rewrite (releaseLock_delivered _ _ _ Hd).
  rewrite decide_True by exact Hheld.
  cbn [fst snd after_cleanup keys with_keys].
  split; [done|]. split; [done|apply lookup_delete_eq].
Qed.

Lemma withLock_no_leak_witness :
  (withLock alice "r" fn_boom empty_world).1 = Raised (Thrown (VStr "boom"))
  /\ keys (withLock alice "r" fn_boom empty_world).2 !! lockKey "r" = None.
Proof.
  destruct (withLock_no_leak alice "r" fn_boom empty_world eq_refl eq_refl I)
    as (Ho & _ & Hk).
  split; [exact Ho|exact Hk].
Defined.

(** X10. [withLock] never removes a marker that is not its own: if,
    when the operation is over, the lock key carries another identity
    (the lock expired during the operation and somebody else took it),
    that marker is still there when [withLock] settles, whatever the
    transport does. *)
Theorem withLock_spares_foreign_marker
  (self : DistributedLock) (key : string) (fn : M value) (w : World) (e : entry) :
  let a := acquireLock self key w in
  let f := fn a.2 in
  let out := withLock self key fn w in
  a.1 = Returned true ->
  keys f.2 !! lockKey key = Some e ->
  stored e <> clientId self ->
  keys out.2 !! lockKey key = Some e
  /\ (delivers f.2 -> out.1 = f.1).
Proof.
  cbv zeta. intros Ha He Hne. rewrite withLock_eq.
  destruct (acquireLock self key w) as [[[|]|e0] w1]; cbn [fst snd] in *;
    try discriminate.
  assert (Hnot : ~ held_by self key (fn w1).2).
  { unfold held_by. rewrite He. cbn. congruence. }
  destruct (delivers_cases (fn w1).2) as [Hd|(e' & fs & Hf)].
  - rewrite (releaseLock_delivered _ _ _ Hd), decide_False by exact Hnot.
    cbn [fst snd after_cleanup keys posted]. done.
  - rewrite (releaseLock_failed _ _ _ _ _ Hf). cbn [fst snd keys posted].
    split; [exact He|]. unfold delivers. rewrite Hf. done.
Qed.

Lemma withLock_spares_foreign_marker_witness :
  (withLock alice "r" fn_overrun empty_world).1 = Returned (VStr "late")
  /\ keys (withLock alice "r" fn_overrun empty_world).2 !! lockKey "r"
     = Some (marker bob).
Proof.
  destruct (withLock_spares_foreign_marker alice "r" fn_overrun empty_world
              (marker bob) eq_refl eq_refl ltac:(discriminate)) as [Hk Ho].
  split; [exact (Ho I)|exact Hk].
Defined.

(** X11. Ownership is the identity string and nothing else.  Right after
    a manager [b] acquired a lock (say, once the marker of [a] had
    expired), a release by [a] returns [true] and deletes the marker of
    [b] exactly when [a] and [b] carry the same identity; with
    different identities it returns [false], the marker of [b] stays and
    [b] can still release it. *)
Theorem stale_release_needs_same_identity
  (a b : DistributedLock) (key : string) (w : World) :
  let w1 := (acquireLock b key w).2 in
  let rel := releaseLock a key w1 in
  (acquireLock b key w).1 = Returned true ->
  delivers w1 ->
  keys w1 !! lockKey key = Some (marker b)
  /\ (rel.1 = Returned true <-> clientId a = clientId b)
  /\ (clientId a = clientId b -> keys rel.2 !! lockKey key = None)
  /\ (clientId a <> clientId b ->
      rel.1 = Returned false
      /\ keys rel.2 !! lockKey key = Some (marker b)
      /\ (delivers rel.2 -> (releaseLock b key rel.2).1 = Returned true)).
Proof.
  cbv zeta. intros Hb Hd.
  destruct (acquireLock_true _ _ _ Hb) as [_ Hk].
  assert (Hm : keys (acquireLock b key w).2 !! lockKey key = Some (marker b))
    by (by rewrite Hk, lookup_insert_eq).
  assert (Hiff : held_by a key (acquireLock b key w).2 <-> clientId a = clientId b).
  { unfold held_by. rewrite Hm. cbn. split; congruence. }
  rewrite (releaseLock_delivered _ _ _ Hd).
  split; [exact Hm|].
  destruct (decide (held_by a key (acquireLock b key w).2)) as [Hh|Hn];
    cbn [fst snd keys with_keys posted].
  - apply Hiff in Hh. split; [done|]. split.
    + intros _. apply lookup_delete_eq.
    + intros Hne. by destruct Hne.
  - assert (Hne : clientId a <> clientId b) by (intros H; by apply Hn, Hiff).
    split; [split; [discriminate|done]|]. split; [done|].
    intros _. split; [done|]. split; [exact Hm|].
    intros Hd'. rewrite (releaseLock_delivered _ _ _ Hd').
    rewrite decide_True; [done|].
    unfold held_by. cbn [keys posted]. by rewrite Hm.
Qed.

Lemma stale_release_needs_same_identity_witness :
  (releaseLock alice "r" (acquireLock bob "r" empty_world).2).1 = Returned false
  /\ keys (releaseLock alice "r" (acquireLock bob "r" empty_world).2).2
       !! lockKey "r" = Some (marker bob).
Proof.
  destruct (stale_release_needs_same_identity alice bob "r" empty_world
              eq_refl I) as (_ & _ & _ & Hne).
  destruct (Hne ltac:(discriminate)) as (Hr & Hk & _).
  split; [exact Hr|exact Hk].
Defined.

(** ** Concurrent [safeSet] calls *)

(** X12. A [safeSet] call is its three awaits and nothing more: letting
    the cluster take the commands of one call one after the other, with
    no other command in between, settles the call with the result of
    [safeSet] and leaves the world [safeSet] leaves, whatever the
    transport does (after a denial or a failed acquisition the call has
    settled early and the remaining steps change nothing). *)
Theorem advance_thrice_is_safeSet self key value ttl w :
  let s1 := advance key (called self value ttl) w in
  let s2 := advance key s1.1 s1.2 in
  let s3 := advance key s2.1 s2.2 in
  at_phase s3.1 = Settled (safeSet self key value ttl w).1
  /\ s3.2 = (safeSet self key value ttl w).2.
Proof.
  cbv zeta. rewrite safeSet_eq, acquireLock_client_set.
  cbv [advance called moved at_phase caller payload lifetime].
  destruct (client_set (lockKey key) (clientId self) (lock_options self) w)
    as [[r|e] w1]; cbv [fst snd]; [|done].
  destruct (truthy r); cbv [negb fst snd]; [|done].
  rewrite releaseLock_invoke.
  destruct (data_write key value ttl w1) as [[r2|e2] w2]; cbv [fst snd];
    destruct (invokeScriptWithRoute releaseLockScript
                [lockKey key; clientId self] (primarySlotKey (lockKey key)) w2)
      as [[v|e3] w3]; done.
Qed.

(** *** One step of a call on a delivering transport *)

Lemma advance_acquiring key c w :
  0 < lockTtlSeconds (caller c) ->
  delivers w ->
  at_phase c = Acquiring ->
  advance key c w =
    match keys w !! lockKey key with
    | None =>
        (moved c Writing,
         with_keys (<[lockKey key := marker (caller c)]> (keys w))
           (posted (acquire_command (caller c) key) w))
    | Some _ =>
        (moved c (Settled (Returned false)),
         posted (acquire_command (caller c) key) w)
    end.
Proof.
  intros Hpos Hd Hp. unfold advance. rewrite Hp.
  rewrite (client_set_delivered _ _ _ _ Hd), (do_set_lock _ _ _ Hpos).
  destruct (keys w !! lockKey key); reflexivity.
Qed.

Lemma advance_writing key c w :
  valid_ttl (lifetime c) ->
  delivers w ->
  at_phase c = Writing ->
  advance key c w =
    (moved c (Releasing (Returned tt)),
     with_keys (<[key := data_entry (payload c) (lifetime c)]> (keys w))
       (posted (CmdSet key (payload c) (write_options (lifetime c))) w)).
Proof.
  intros Hv Hd Hp. unfold advance. rewrite Hp.
  by rewrite (data_write_delivered _ _ _ _ Hv Hd).
Qed.

Lemma advance_releasing key c w u :
  delivers w ->
  at_phase c = Releasing (Returned u) ->
  held_by (caller c) key w ->
  advance key c w =
    (moved c (Settled (Returned true)),
     with_keys (delete (lockKey key) (keys w))
       (posted (release_command (caller c) key) w)).
Proof.
  intros Hd Hp Hh. unfold advance. rewrite Hp.
  pose proof (releaseLock_delivered (caller c) key w Hd) as Hrel.
  rewrite decide_True in Hrel by exact Hh.
  rewrite releaseLock_invoke in Hrel.
  destruct (invokeScriptWithRoute releaseLockScript
              [lockKey key; clientId (caller c)] (primarySlotKey (lockKey key)) w)
    as [[v|e] w1]; [|discriminate].
  by injection Hrel as _ <-.
Qed.

Lemma remaining_advance key c w :
  in_flight c = true -> (remaining (advance key c w).1 < remaining c)%nat.
Proof.
  unfold in_flight, remaining, advance.
  destruct (at_phase c) as [| |o|r]; intros H; try discriminate.
  - destruct (client_set _ _ _ w) as [[r|e] w1]; cbn; [|lia].
    destruct (truthy r); cbn; lia.
  - destruct (data_write _ _ _ w) as [[r|e] w1]; cbn; lia.
  - destruct (invokeScriptWithRoute _ _ _ w) as [[r|e] w1]; cbn; lia.
Qed.

(** *** Counting in a list of calls *)

Lemma filter_none {A} (P : A -> bool) (l : list A) x :
  length (List.filter P l) = 0%nat -> x ∈ l -> P x = false.
Proof.
  intros Hl Hx. destruct (P x) eqn:HP; [|done].
  assert (In x (List.filter P l)) as Hin
    by (apply List.filter_In; split; [by apply list_elem_of_In|done]).
  destruct (List.filter P l); [destruct Hin|discriminate].
Qed.

Lemma filter_some {A} (P : A -> bool) (l : list A) :
  length (List.filter P l) <> 0%nat -> exists x, x ∈ l /\ P x = true.
Proof.
  destruct (List.filter P l) as [|x l'] eqn:Hf; [done|]. intros _.
  assert (In x (List.filter P l)) as Hin by (rewrite Hf; by left).
  apply List.filter_In in Hin as [Hin HP].
  exists x. split; [by apply list_elem_of_In|done].
Qed.

Lemma filter_split {A} (P : A -> bool) (before after : list A) c :
  length (List.filter P (before ++ c :: after))
  = (length (List.filter P before) + (if P c then 1 else 0)
     + length (List.filter P after))%nat.
Proof.
  rewrite List.filter_app, length_app. cbn. destruct (P c); cbn; lia.
Qed.

Lemma elem_of_split {A} (before after : list A) c x :
  x ∈ before ++ c :: after <-> x ∈ before \/ x = c \/ x ∈ after.
Proof. by rewrite elem_of_app, elem_of_cons. Qed.

Lemma Forall_split {A} (P : A -> Prop) (before after : list A) c :
  Forall P (before ++ c :: after) <-> Forall P before /\ P c /\ Forall P after.
Proof. by rewrite Forall_app, Forall_cons. Qed.

(** *** The invariant of a pool *)

Lemma pool_inv_start key (cs : list call) w :
  Forall valid_call cs ->
  reliable w ->
  keys w !! lockKey key = None ->
  Forall (fun c => at_phase c = Acquiring) cs ->
  pool_inv key (keys w !! key) {| calls := cs; shared := w |}.
Proof.
  intros Hval Hr Hk Hall.
  assert (Hin : forall c, c ∈ cs -> at_phase c = Acquiring)
    by (by apply Forall_forall).
  assert (Hnone : length (List.filter inside cs) = 0%nat).
  { destruct (Nat.eq_dec (length (List.filter inside cs)) 0%nat) as [|Hne]; [done|].
    destruct (filter_some inside cs Hne) as (x & Hx & Hi).
    unfold inside in Hi. by rewrite (Hin x Hx) in Hi. }
  split; cbn [calls shared].
  - exact Hr.
  - exact Hval.
  - apply Forall_forall. intros c Hc. unfold sound_phase. by rewrite (Hin c Hc).
  - intros c Hc Hi. unfold inside in Hi. by rewrite (Hin c Hc) in Hi.
  - by rewrite Hk.
  - left. split; [|done]. apply Forall_forall. intros c Hc.
    unfold wrote. by rewrite (Hin c Hc).
  - by left.
Qed.

Lemma pool_inv_step key d0 s s' :
  pool_inv key d0 s -> pool_step key s s' -> pool_inv key d0 s'.
Proof.
  intros [Hr Hval Hs Hm Hh Hd Hst] Hstep.
  destruct Hstep as [before c after w Hfl]. cbn [calls shared] in *.
  pose proof (reliable_delivers _ Hr) as Hdel.
  apply Forall_split in Hs as (Hsb & Hsc & Hsa).
  apply Forall_split in Hval as (Hvb & [Hpos Hvt] & Hva).
  assert (Hval' : forall p, Forall valid_call (before ++ moved c p :: after))
    by (intros p; apply Forall_split; done).
  rewrite filter_split in Hh.
  assert (Hlk : lockKey key <> key) by apply lockKey_neq.
  destruct (at_phase c) as [| |o|r] eqn:Hp; [| | |by unfold in_flight in Hfl; rewrite Hp in Hfl].
  - (* the conditional set *)
    assert (Hic : inside c = false) by (unfold inside; by rewrite Hp).
    assert (Hwc : wrote c = false) by (unfold wrote; by rewrite Hp).
    rewrite Hic in Hh.
    rewrite (advance_acquiring _ _ _ Hpos Hdel Hp).
    destruct (keys w !! lockKey key) as [e|] eqn:Hk; cbn [fst snd].
    + (* denied *)
      split; cbn [calls shared keys posted].
      * by apply reliable_posted.
      * apply Hval'.
      * apply Forall_split. done.
      * intros x Hx Hi. rewrite Hk.
        apply elem_of_split in Hx as [Hx|[->|Hx]]; [|done|];
          (apply Hm; [apply elem_of_split; auto|done]).
      * rewrite filter_split, Hk. cbn. exact Hh.
      * destruct Hd as [[Hall Hd]|(x & Hx & Hw & Hd)].
        -- left. split; [|exact Hd]. apply Forall_split in Hall as (? & ? & ?).
           apply Forall_split. done.
        -- right. exists x. split; [|done].
           apply elem_of_split in Hx as [Hx|[->|Hx]];
             [apply elem_of_split; auto|congruence|apply elem_of_split; auto].
      * right.
        destruct (filter_some inside (before ++ after)) as (x & Hx & Hi).
        { rewrite List.filter_app, length_app. lia. }
        exists x. split; [|by left].
        apply elem_of_app in Hx as [Hx|Hx]; apply elem_of_split; auto.
    + (* acquired *)
      assert (Hnb : length (List.filter inside before) = 0%nat) by lia.
      assert (Hna : length (List.filter inside after) = 0%nat) by lia.
      split; cbn [calls shared keys with_keys posted].
      * apply reliable_with_keys. by apply reliable_posted.
      * apply Hval'.
      * apply Forall_split. done.
      * intros x Hx Hi. rewrite lookup_insert_eq.
        apply elem_of_split in Hx as [Hx|[->|Hx]]; [|done|].
        -- by rewrite (filter_none inside before x Hnb Hx) in Hi.
        -- by rewrite (filter_none inside after x Hna Hx) in Hi.
      * rewrite filter_split, lookup_insert_eq. cbn. lia.
      * rewrite lookup_insert_ne by done.
        destruct Hd as [[Hall Hd]|(x & Hx & Hw & Hd)].
        -- left. split; [|exact Hd]. apply Forall_split in Hall as (? & ? & ?).
           apply Forall_split. done.
        -- right. exists x. split; [|done].
           apply elem_of_split in Hx as [Hx|[->|Hx]];
             [apply elem_of_split; auto|congruence|apply elem_of_split; auto].
      * right. exists (moved c Writing). split; [|by left].
        apply elem_of_split. auto.
  - (* the write *)
    assert (Hic : inside c = true) by (unfold inside; by rewrite Hp).
    rewrite Hic in Hh.
    assert (Hmc : keys w !! lockKey key = Some (marker (caller c)))
      by (apply Hm; [apply elem_of_split; auto|done]).
    rewrite (advance_writing _ _ _ Hvt Hdel Hp). cbn [fst snd].
    split; cbn [calls shared keys with_keys posted].
    + apply reliable_with_keys. by apply reliable_posted.
    + apply Hval'.
    + apply Forall_split. done.
    + intros x Hx Hi. rewrite lookup_insert_ne by done.
      apply elem_of_split in Hx as [Hx|[->|Hx]]; [|exact Hmc|];
        (apply Hm; [apply elem_of_split; auto|done]).
    + rewrite filter_split, lookup_insert_ne by done. exact Hh.
    + right. exists (moved c (Releasing (Returned tt))).
      split; [apply elem_of_split; auto|]. split; [done|].
      by rewrite lookup_insert_eq.
    + right. exists (moved c (Releasing (Returned tt))).
      split; [apply elem_of_split; auto|by left].
  - (* the release *)
    assert (Hic : inside c = true) by (unfold inside; by rewrite Hp).
    rewrite Hic in Hh.
    assert (Hmc : keys w !! lockKey key = Some (marker (caller c)))
      by (apply Hm; [apply elem_of_split; auto|done]).
    rewrite Hmc in Hh.
    assert (Hnb : length (List.filter inside before) = 0%nat) by lia.
    assert (Hna : length (List.filter inside after) = 0%nat) by lia.
    unfold sound_phase in Hsc. rewrite Hp in Hsc.
    destruct o as [u|e]; [|done].
    assert (Hheld : held_by (caller c) key w)
      by (unfold held_by; by rewrite Hmc).
    rewrite (advance_releasing _ _ _ u Hdel Hp Hheld). cbn [fst snd].
    split; cbn [calls shared keys with_keys posted].
    + apply reliable_with_keys. by apply reliable_posted.
    + apply Hval'.
    + apply Forall_split. done.
    + intros x Hx Hi.
      apply elem_of_split in Hx as [Hx|[->|Hx]]; [|done|].
      * by rewrite (filter_none inside before x Hnb Hx) in Hi.
      * by rewrite (filter_none inside after x Hna Hx) in Hi.
    + rewrite filter_split, lookup_delete_eq. cbn. lia.
    + rewrite lookup_delete_ne by done.
      destruct Hd as [[Hall Hd]|(x & Hx & Hw & Hd)].
      * apply Forall_split in Hall as (_ & Hc & _).
        unfold wrote in Hc. by rewrite Hp in Hc.
      * right. apply elem_of_split in Hx as [Hx|[->|Hx]].
        -- exists x. split; [apply elem_of_split; auto|done].
        -- exists (moved c (Settled (Returned true))).
           split; [apply elem_of_split; auto|]. split; [done|exact Hd].
        -- exists x. split; [apply elem_of_split; auto|done].
    + right. exists (moved c (Settled (Returned true))).
      split; [apply elem_of_split; auto|by right].
Qed.

Lemma pool_inv_rtc key d0 s s' :
  rtc (pool_step key) s s' -> pool_inv key d0 s -> pool_inv key d0 s'.
Proof.
  induction 1 as [|s1 s2 s3 Hstep _ IH]; [done|].
  intros Hinv. apply IH. eapply pool_inv_step; eauto.
Qed.

Lemma advance_arguments key c w : arguments (advance key c w).1 = arguments c.
Proof.
  unfold advance.
  destruct (at_phase c);
    repeat match goal with
           | |- context [match ?m with _ => _ end] => destruct m
           end; reflexivity.
Qed.

Lemma pool_rtc_arguments key s s' :
  rtc (pool_step key) s s' -> arguments <$> calls s' = arguments <$> calls s.
Proof.
  induction 1 as [|s1 s2 s3 Hstep _ IH]; [done|].
  rewrite IH. destruct Hstep as [before c after w _]. cbn [calls].
  rewrite !fmap_app, !fmap_cons. by rewrite advance_arguments.
Qed.

(** A call can always be run to its end, and so can a whole pool. *)
Lemma finish_call key n :
  forall c before after w,
    (remaining c <= n)%nat ->
    exists c' w',
      rtc (pool_step key)
        {| calls := before ++ c :: after; shared := w |}
        {| calls := before ++ c' :: after; shared := w' |}
      /\ in_flight c' = false.
Proof.
  induction n as [|n IH]; intros c before after w Hn.
  - exists c, w. split; [apply rtc_refl|].
    unfold remaining, in_flight in *. destruct (at_phase c); [lia..|done].
  - destruct (in_flight c) eqn:Hfl.
    + pose proof (remaining_advance key c w Hfl) as Hlt.
      destruct (IH (advance key c w).1 before after (advance key c w).2
                  ltac:(lia)) as (c' & w' & Hrun & Hend).
      exists c', w'. split; [|exact Hend].
      eapply rtc_l; [|exact Hrun]. by apply pool_take.
    + exists c, w. split; [apply rtc_refl|exact Hfl].
Qed.

Lemma finish_pool key after :
  forall before w,
    Forall (fun c => in_flight c = false) before ->
    exists final,
      rtc (pool_step key) {| calls := before ++ after; shared := w |} final
      /\ Forall (fun c => in_flight c = false) (calls final).
Proof.
  induction after as [|c after IH]; intros before w Hb.
  - eexists. split; [apply rtc_refl|]. cbn. by rewrite app_nil_r.
  - destruct (finish_call key (remaining c) c before after w (le_n _))
      as (c' & w' & Hrun & Hend).
    destruct (IH (before ++ [c']) w') as (final & Hrun' & Hfin).
    { apply Forall_app. split; [done|]. by constructor. }
    exists final. split; [|exact Hfin].
    etrans; [exact Hrun|]. by rewrite <- (assoc_L (++)) in Hrun'.
Qed.

(** X13. Mutual exclusion among concurrent [safeSet] calls.  Start any
    number of [safeSet] calls on one name, by any managers with a
    positive TTL and with [ttl] arguments that are ["*"] or positive, on
    a delivering transport with the lock free, and let the cluster take
    their commands in any order.  In every state that can be reached, at
    most one call is between its acquisition and its release, there is
    one exactly when the lock key exists, the marker carries the
    identity of that call's manager, and no call has failed. *)
Theorem safeSet_mutual_exclusion
  (key : string) (cs : list call) (w : World) (s : pool) :
  Forall (fun c => 0 < lockTtlSeconds (caller c)
                   /\ match lifetime c with
                      | star => True
                      | seconds n => 0 < n
                      end) cs ->
  reliable w ->
  keys w !! lockKey key = None ->
  Forall (fun c => at_phase c = Acquiring) cs ->
  rtc (pool_step key) {| calls := cs; shared := w |} s ->
  (length (List.filter inside (calls s)) <= 1)%nat
  /\ (length (List.filter inside (calls s)) = 1%nat
      <-> is_Some (keys (shared s) !! lockKey key))
  /\ (forall c, c ∈ calls s -> inside c = true ->
      keys (shared s) !! lockKey key = Some (marker (caller c)))
  /\ Forall sound_phase (calls s).
Proof.
  intros Hval Hr Hk Hall Hrun.
  destruct (pool_inv_rtc key _ _ _ Hrun (pool_inv_start key cs w Hval Hr Hk Hall))
    as [_ _ Hs Hm Hh _ _].
  rewrite Hh. destruct (keys (shared s) !! lockKey key) as [e|].
  - split; [lia|]. split; [split; [by eexists|done]|]. done.
  - split; [lia|]. split; [split; [discriminate|intros [? ?]; discriminate]|].
    done.
Qed.

Lemma safeSet_mutual_exclusion_witness :
  let s1 := {| calls := [] ++ (advance "counter" (called alice "2" star)
                                 empty_world).1
                          :: [called alice "1" star; called alice "3" star];
               shared := (advance "counter" (called alice "2" star)
                            empty_world).2 |} in
  length (List.filter inside (calls s1)) = 1%nat
  /\ keys (shared s1) !! lockKey "counter" = Some (marker alice).
Proof.
  cbv zeta.
  destruct (safeSet_mutual_exclusion "counter"
              ([] ++ called alice "2" star
                  :: [called alice "1" star; called alice "3" star])
              empty_world _ ltac:(repeat constructor)
              ltac:(constructor) eq_refl
              ltac:(repeat constructor)
              (rtc_once _ _
                 (pool_take "counter" [] (called alice "2" star)
                    [called alice "1" star; called alice "3" star]
                    empty_world eq_refl)))
    as (_ & Hone & Hm & _).
  split; [apply Hone; by eexists|].
  apply (Hm (advance "counter" (called alice "2" star) empty_world).1);
    [apply list_elem_of_here|reflexivity].
Defined.

(** X14. Concurrent [safeSet] calls always come to an end, and no lock
    leaks.  With at least one call, every call by a manager with a
    positive TTL and with a [ttl] argument that is ["*"] or positive,
    the lock free and a delivering transport: from every state that can be reached the pool can be run
    until all calls have settled; and whenever all have settled, in
    whatever order the commands were taken, the calls are the ones that
    were started, each returned [true] or [false], at least one returned
    [true], the lock key is absent, and the data key holds the value and
    expiry of a call that returned [true]. *)
Theorem safeSet_pool_completes
  (key : string) (cs : list call) (w : World) :
  cs <> [] ->
  Forall (fun c => 0 < lockTtlSeconds (caller c)
                   /\ match lifetime c with
                      | star => True
                      | seconds n => 0 < n
                      end) cs ->
  reliable w ->
  keys w !! lockKey key = None ->
  Forall (fun c => at_phase c = Acquiring) cs ->
  (forall s, rtc (pool_step key) {| calls := cs; shared := w |} s ->
     exists final,
       rtc (pool_step key) s final
       /\ Forall (fun c => in_flight c = false) (calls final))
  /\ (forall final,
        rtc (pool_step key) {| calls := cs; shared := w |} final ->
        Forall (fun c => in_flight c = false) (calls final) ->
        arguments <$> calls final = arguments <$> cs
        /\ Forall (fun c => at_phase c = Settled (Returned true)
                            \/ at_phase c = Settled (Returned false))
             (calls final)
        /\ keys (shared final) !! lockKey key = None
        /\ (exists c, c ∈ calls final
                      /\ at_phase c = Settled (Returned true)
                      /\ keys (shared final) !! key
                         = Some (data_entry (payload c) (lifetime c)))).
Proof.
  intros Hne Hval Hr Hk Hall. split.
  - intros [cs' w'] _. apply (finish_pool key cs' [] w'). constructor.
  - intros final Hrun Hfin.
    pose proof (pool_rtc_arguments key _ _ Hrun) as Hargs. cbn [calls] in Hargs.
    destruct (pool_inv_rtc key _ _ _ Hrun
                (pool_inv_start key cs w Hval Hr Hk Hall))
      as [_ _ Hs _ Hh Hd Hst].
    assert (Hset : forall c, c ∈ calls final ->
              at_phase c = Settled (Returned true)
              \/ at_phase c = Settled (Returned false)).
    { intros c Hc.
      pose proof (proj1 (Forall_forall _ _) Hfin c Hc) as Hf.
      pose proof (proj1 (Forall_forall _ _) Hs c Hc) as Hsound.
      unfold in_flight in Hf. unfold sound_phase in Hsound.
      destruct (at_phase c) as [| |o|[[|]|e]]; try discriminate; auto; done. }
    assert (Hout : forall c, c ∈ calls final -> inside c = false).
    { intros c Hc. unfold inside. by destruct (Hset c Hc) as [-> | ->]. }
    assert (Hnone : length (List.filter inside (calls final)) = 0%nat).
    { destruct (Nat.eq_dec (length (List.filter inside (calls final))) 0%nat)
        as [|Hn]; [done|].
      destruct (filter_some inside _ Hn) as (x & Hx & Hi).
      by rewrite (Hout x Hx) in Hi. }
    assert (Hwin : exists c, c ∈ calls final /\ succeeded c = true).
    { destruct Hst as [Hacq|(c & Hc & [Hi|Hsuc])].
      - destruct (calls final) as [|c l] eqn:Hcalls.
        + destruct cs; [done|discriminate].
        + apply Forall_cons in Hacq as [Hacq _].
          apply Forall_cons in Hfin as [Hf _].
          unfold in_flight in Hf. by rewrite Hacq in Hf.
      - by rewrite (Hout c Hc) in Hi.
      - eauto. }
    split; [exact Hargs|]. split; [by apply Forall_forall|]. split.
    + rewrite Hnone in Hh. by destruct (keys (shared final) !! lockKey key).
    + destruct Hd as [[Hnw _]|(c & Hc & Hw & Hd)].
      * destruct Hwin as (c & Hc & Hsuc).
        pose proof (proj1 (Forall_forall _ _) Hnw c Hc) as Hw.
        unfold wrote in Hw. unfold succeeded in Hsuc.
        destruct (at_phase c) as [| |o|[[|]|e]]; discriminate.
      * exists c. split; [exact Hc|]. split; [|exact Hd].
        unfold wrote in Hw. destruct (Hset c Hc) as [Ht|Hf]; [exact Ht|].
        by rewrite Hf in Hw.
Qed.

Lemma safeSet_pool_completes_witness :
  exists final,
    rtc (pool_step "counter") {| calls := three_calls; shared := empty_world |} final
    /\ keys (shared final) !! lockKey "counter" = None
    /\ (exists c, c ∈ calls final
                  /\ at_phase c = Settled (Returned true)
                  /\ keys (shared final) !! "counter"
                     = Some (data_entry (payload c) (lifetime c))).
Proof.
  destruct (safeSet_pool_completes "counter" three_calls empty_world
              ltac:(discriminate) ltac:(repeat constructor)
              ltac:(constructor) eq_refl
              ltac:(repeat constructor)) as [Hfinish Hend].
  destruct (Hfinish _ (rtc_refl _ _)) as (final & Hrun & Hfin).
  destruct (Hend final Hrun Hfin) as (_ & _ & Hk & Hc).
  exists final. split; [exact Hrun|]. split; [exact Hk|exact Hc].
Defined.

(** *** Calls whose acquisitions were all taken first *)

Lemma pipelined_step key d0 s s' :
  pool_inv key d0 s ->
  Forall (fun c => at_phase c <> Acquiring) (calls s) ->
  pool_step key s s' ->
  Forall (fun c => at_phase c <> Acquiring) (calls s')
  /\ length (List.filter winner (calls s')) = length (List.filter winner (calls s)).
Proof.
  intros [Hr Hval Hs Hm _ _ _] Hna Hstep.
  destruct Hstep as [before c after w Hfl]. cbn [calls shared] in *.
  pose proof (reliable_delivers _ Hr) as Hdel.
  apply Forall_split in Hs as (_ & Hsc & _).
  apply Forall_split in Hval as (_ & [_ Hvt] & _).
  apply Forall_split in Hna as (Hnb & Hnc & Hnaf).
  rewrite !filter_split.
  destruct (at_phase c) as [| |o|r] eqn:Hp;
    [done| | |by unfold in_flight in Hfl; rewrite Hp in Hfl].
  - rewrite (advance_writing _ _ _ Hvt Hdel Hp). cbn [fst].
    split; [apply Forall_split; done|].
    unfold winner, inside, succeeded. rewrite Hp. reflexivity.
  - assert (Hic : inside c = true) by (unfold inside; by rewrite Hp).
    assert (Hheld : held_by (caller c) key w).
    { unfold held_by. rewrite (Hm c); [done|apply elem_of_split; auto|done]. }
    unfold sound_phase in Hsc. rewrite Hp in Hsc. destruct o as [u|e]; [|done].
    rewrite (advance_releasing _ _ _ u Hdel Hp Hheld). cbn [fst].
    split; [apply Forall_split; done|].
    unfold winner, inside, succeeded. rewrite Hp. reflexivity.
Qed.

Lemma pipelined_rtc key d0 s s' :
  rtc (pool_step key) s s' ->
  pool_inv key d0 s ->
  Forall (fun c => at_phase c <> Acquiring) (calls s) ->
  length (List.filter winner (calls s')) = length (List.filter winner (calls s)).
Proof.
  induction 1 as [|s1 s2 s3 Hstep _ IH]; [done|].
  intros Hinv Hna.
  destruct (pipelined_step key d0 s1 s2 Hinv Hna Hstep) as [Hna' Heq].
  rewrite <- Heq. apply IH; [by eapply pool_inv_step|exact Hna'].
Qed.

Lemma filter_partition {A} (P Q : A -> bool) (l : list A) :
  Forall (fun x => P x = negb (Q x)) l ->
  (length (List.filter P l) + length (List.filter Q l))%nat = length l.
Proof.
  induction 1 as [|x l Hx _ IH]; [done|].
  cbn. rewrite Hx. destruct (Q x); cbn; lia.
Qed.

(** X15. On a delivering transport, with the lock free, all calls by
    managers with a positive TTL and with [ttl] arguments that are ["*"]
    or positive: when all the [safeSet] calls on a name have had their
    acquisition taken before any of them writes (as when one client
    sends them off together, Example 4 of [example.ts]), exactly one
    call returns [true] and all the others return [false], however the
    remaining commands are ordered. *)
Theorem safeSet_pipelined_one_winner
  (key : string) (cs : list call) (w : World) (s final : pool) :
  cs <> [] ->
  Forall (fun c => 0 < lockTtlSeconds (caller c)
                   /\ match lifetime c with
                      | star => True
                      | seconds n => 0 < n
                      end) cs ->
  reliable w ->
  keys w !! lockKey key = None ->
  Forall (fun c => at_phase c = Acquiring) cs ->
  rtc (pool_step key) {| calls := cs; shared := w |} s ->
  Forall (fun c => at_phase c = Writing \/ at_phase c = Settled (Returned false))
    (calls s) ->
  rtc (pool_step key) s final ->
  Forall (fun c => in_flight c = false) (calls final) ->
  length (List.filter succeeded (calls final)) = 1%nat
  /\ length (List.filter refused (calls final)) = (length cs - 1)%nat.
Proof.
  intros Hne Hval Hr Hk Hall Hrun Hs Hrun' Hfin.
  pose proof (pool_inv_rtc key _ _ _ Hrun
                (pool_inv_start key cs w Hval Hr Hk Hall)) as Hinv.
  pose proof (pool_inv_rtc key _ _ _ Hrun' Hinv) as Hinv'.
  assert (Hlen : length (calls final) = length cs).
  { assert (Hall' : rtc (pool_step key) {| calls := cs; shared := w |} final)
      by (etrans; eassumption).
    pose proof (pool_rtc_arguments key _ _ Hall') as Ha.
    cbn [calls] in Ha. apply (f_equal length) in Ha.
    by rewrite !length_fmap in Ha. }
  assert (Hna : Forall (fun c => at_phase c <> Acquiring) (calls s)).
  { eapply Forall_impl; [exact Hs|]. intros c [-> | ->]; discriminate. }
  pose proof (pipelined_rtc key _ _ _ Hrun' Hinv Hna) as Hcount.
  (* in [s] the winners are the holders, and there is one *)
  assert (Hs1 : length (List.filter winner (calls s)) = 1%nat).
  { assert (Hext : List.filter winner (calls s) = List.filter inside (calls s)).
    { apply List.filter_ext_in. intros c Hc.
      apply list_elem_of_In in Hc.
      pose proof (proj1 (Forall_forall _ _) Hs c Hc) as Hph.
      unfold winner, succeeded, inside. by destruct Hph as [-> | ->]. }
    rewrite Hext. destruct Hinv as [_ _ _ _ Hh _ Hst]. rewrite Hh.
    destruct (keys (shared s) !! lockKey key); [done|].
    exfalso.
    assert (Hnone : forall c, c ∈ calls s -> inside c = false)
      by (intros c Hc; by apply (filter_none inside (calls s) c Hh)).
    destruct Hst as [Hacq|(c & Hc & [Hi|Hsuc])].
    - pose proof (pool_rtc_arguments key _ _ Hrun) as Ha. cbn [calls] in Ha.
      destruct (calls s) as [|c l]; [by destruct cs|].
      apply Forall_cons in Hacq as [Hacq _].
      apply Forall_cons in Hna as [Hn _]. done.
    - by rewrite (Hnone c Hc) in Hi.
    - pose proof (proj1 (Forall_forall _ _) Hs c Hc) as Hph.
      unfold succeeded in Hsuc. by destruct Hph as [Hp | Hp]; rewrite Hp in Hsuc. }
  (* in [final] the winners are the calls that returned [true] *)
  assert (Hf1 : List.filter winner (calls final) = List.filter succeeded (calls final)).
  { apply List.filter_ext_in. intros c Hc. apply list_elem_of_In in Hc.
    pose proof (proj1 (Forall_forall _ _) Hfin c Hc) as Hf.
    unfold winner, inside, succeeded, in_flight in *.
    by destruct (at_phase c). }
  assert (Hpart : (length (List.filter succeeded (calls final))
                   + length (List.filter refused (calls final)))%nat
                  = length (calls final)).
  { apply filter_partition. apply Forall_forall. intros c Hc.
    pose proof (proj1 (Forall_forall _ _) Hfin c Hc) as Hf.
    destruct Hinv' as [_ _ Hsound _ _ _ _].
    pose proof (proj1 (Forall_forall _ _) Hsound c Hc) as Hso.
    unfold succeeded, refused, in_flight, sound_phase in *.
    by destruct (at_phase c) as [| |o|[[|]|e]]. }
  rewrite <- Hf1, Hcount, Hs1. split; [done|].
  rewrite <- Hf1, Hcount, Hs1 in Hpart. lia.
Qed.

Lemma pool_step_take key i s c :
  calls s !! i = Some c ->
  in_flight c = true ->
  pool_step key s (take_at key i s).
Proof.
  intros Hi Hfl. unfold take_at. rewrite Hi. destruct s as [cs w]. cbn in *.
  rewrite insert_take_drop by (by eapply lookup_lt_Some).
  rewrite <- (take_drop_middle cs i c Hi) at 1.
  by apply pool_take.
Qed.

Lemma safeSet_pipelined_one_winner_witness :
  length (List.filter succeeded (calls three_settled)) = 1%nat
  /\ length (List.filter refused (calls three_settled)) = 2%nat
  /\ keys (shared three_settled) !! "counter"
     = Some {| stored := "1"; expires := None |}.
Proof.
  assert (Hrun : rtc (pool_step "counter")
                   {| calls := three_calls; shared := empty_world |}
                   three_acquired).
  { eapply rtc_l;
      [apply (pool_step_take _ 0 _ (called alice "1" star)); reflexivity|].
    eapply rtc_l;
      [apply (pool_step_take _ 1 _ (called alice "2" star)); reflexivity|].
    eapply rtc_l;
      [apply (pool_step_take _ 2 _ (called alice "3" star)); reflexivity|].
    apply rtc_refl. }
  assert (Hrun' : rtc (pool_step "counter") three_acquired three_settled).
  { eapply rtc_l;
      [apply (pool_step_take _ 0 _ (moved (called alice "1" star) Writing));
       reflexivity|].
    eapply rtc_l;
      [apply (pool_step_take _ 0 _
                (moved (called alice "1" star) (Releasing (Returned tt))));
       reflexivity|].
    apply rtc_refl. }
  assert (Hs : Forall (fun c => at_phase c = Writing
                                \/ at_phase c = Settled (Returned false))
                 (calls three_acquired)).
  { assert (Hc : calls three_acquired
                 = [moved (called alice "1" star) Writing;
                    moved (called alice "2" star) (Settled (Returned false));
                    moved (called alice "3" star) (Settled (Returned false))])
      by reflexivity.
    rewrite Hc.
    repeat (apply Forall_cons; split;
            [first [left; reflexivity|right; reflexivity]|]).
    constructor. }
  assert (Hfin : Forall (fun c => in_flight c = false) (calls three_settled)).
  { assert (Hc : calls three_settled
                 = [moved (called alice "1" star) (Settled (Returned true));
                    moved (called alice "2" star) (Settled (Returned false));
                    moved (called alice "3" star) (Settled (Returned false))])
      by reflexivity.
    rewrite Hc. repeat (apply Forall_cons; split; [reflexivity|]).
    constructor. }
  destruct (safeSet_pipelined_one_winner "counter" three_calls empty_world
              three_acquired three_settled
              ltac:(discriminate) ltac:(repeat constructor)
              ltac:(constructor) eq_refl
              ltac:(repeat constructor) Hrun Hs Hrun' Hfin)
    as [Hone Htwo].
  split; [exact Hone|]. split; [exact Htwo|]. reflexivity.
Defined.

(** X16. Two [safeSet] calls on the same key, one after the other, by
    any two managers with a positive TTL, with [ttl] arguments that are
    ["*"] or positive, on a delivering transport with the lock free:
    both return [true], the data key ends with the second value and the
    second expiry (none for ["*"]), and the lock key is absent. *)
Theorem safeSet_twice_last_write_wins
  (m1 m2 : DistributedLock) (key v1 v2 : string) (t1 t2 : ttl_arg) (w : World) :
  0 < lockTtlSeconds m1 ->
  0 < lockTtlSeconds m2 ->
  valid_ttl t1 ->
  valid_ttl t2 ->
  reliable w ->
  keys w !! lockKey key = None ->
  let first := safeSet m1 key v1 t1 w in
  let second := safeSet m2 key v2 t2 first.2 in
  first.1 = Returned true
  /\ second.1 = Returned true
  /\ keys second.2 = <[key := data_entry v2 t2]> (keys w)
  /\ keys second.2 !! lockKey key = None.
Proof.
  intros Hp1 Hp2 Hv1 Hv2 Hr Hk. cbv zeta.
  destruct (safeSet_on_free_lock m1 key v1 t1 w Hp1 Hv1 Hr Hk)
    as (H1 & Hk1 & Hl1 & _ & Hr1).
  destruct (safeSet_on_free_lock m2 key v2 t2 _ Hp2 Hv2 Hr1 Hl1)
    as (H2 & Hk2 & Hl2 & _ & _).
  cbv zeta in *.
  split; [exact H1|]. split; [exact H2|]. split; [|exact Hl2].
  rewrite Hk2, Hk1. unfold data_entry. apply insert_insert_eq.
Qed.

Lemma safeSet_twice_last_write_wins_witness :
  (safeSet bob "k" "v2" (seconds 60) (safeSet alice "k" "v1" star empty_world).2).1
  = Returned true
  /\ keys (safeSet bob "k" "v2" (seconds 60)
             (safeSet alice "k" "v1" star empty_world).2).2
     = <["k" := data_entry "v2" (seconds 60)]> (keys empty_world).
Proof.
  destruct (safeSet_twice_last_write_wins alice bob "k" "v1" "v2" star (seconds 60)
              empty_world eq_refl eq_refl I eq_refl ltac:(constructor) eq_refl)
    as (_ & H2 & Hk & _).
  split; [exact H2|exact Hk].
Defined.

(** ** A manager whose TTL is not positive *)

(** X17. A manager whose TTL is not positive can never take a lock: on
    a delivered command the cluster refuses the expiry of its
    acquisition, so [acquireLock], [safeSet] and [withLock] all raise
    that error, whether the lock is free or not; the key space is
    unchanged, one command has been sent, nothing is written and the
    operation given to [withLock] is not run. *)
Theorem non_positive_ttl_never_acquires
  (self : DistributedLock) (fn : M value)
  (key value : string) (ttl : ttl_arg) (w : World) :
  lockTtlSeconds self <= 0 ->
  delivers w ->
  let refused :=
    {| keys := keys w;
       sent := sent w ++ [CmdSet (lockKey key) (clientId self) (lock_options self)];
       faults := tl (faults w) |} in
  acquireLock self key w = (Raised invalid_expire_time, refused)
  /\ safeSet self key value ttl w = (Raised invalid_expire_time, refused)
  /\ withLock self key fn w = (Raised invalid_expire_time, refused).
Proof.
  intros Hneg Hd. cbv zeta.
  rewrite safeSet_eq, withLock_eq.
  rewrite (acquireLock_refused self key w ltac:(lia) Hd). done.
Qed.

Lemma non_positive_ttl_never_acquires_witness :
  (acquireLock dave "r" empty_world).1 = Raised invalid_expire_time
  /\ (safeSet dave "r" "v" star empty_world).1 = Raised invalid_expire_time
  /\ keys (safeSet dave "r" "v" star empty_world).2 = keys empty_world
  /\ (withLock dave "r" fn_done empty_world).1 = Raised invalid_expire_time.
Proof.
  destruct (non_positive_ttl_never_acquires dave fn_done "r" "v" star empty_world
              ltac:(discriminate) I) as (Ha & Hs & Hw).
  cbv zeta in *.
  split; [by rewrite Ha|]. split; [by rewrite Hs|].
  split; [by rewrite Hs|by rewrite Hw].
Defined.
